(** * matrix-alertmanager: the summary merger of [src/utils.js]

    A shallow embedding of [segmentString], [diffSegmented] and
    [mergeStrings], and the properties of the merged template.

    JavaScript strings are modelled by [string]: a sequence of code units,
    here the units below 256.  [s.length] is [String.length s], [s[i]] the
    [i]-th unit, [a + b] is [a +:+ b].  Offsets into the reference string are
    in [Z], as the sentinel range of the source starts at [-1]. *)

From Stdlib Require Import ZArith Ascii String List Bool Lia.
From stdpp Require Import base decidable list gmap strings sorting.
From Equations Require Import Equations.
Import ListNotations.

Open Scope string_scope.
Open Scope list_scope.
Open Scope Z_scope.

(** ** Outcomes

    [mergeStrings] either returns or throws.  The two [throw new Error(...)]
    of the source are [EmptyInput] ("No strings to merge!") and
    [DiffCoverageMismatch] ("Diff didn't cover length of original string!");
    reading a property of [undefined] is JavaScript's [TypeError]. *)

Inductive error : Type :=
| EmptyInput
| DiffCoverageMismatch
| TypeError.

Inductive result (A : Type) : Type :=
| Ok (a : A)
| Throw (e : error).

Arguments Ok {A} a.
Arguments Throw {A} e.

#[global] Instance result_ret : MRet result := fun A a => Ok a.
#[global] Instance result_bind : MBind result := fun A B k r =>
  match r with
  | Ok a => k a
  | Throw e => Throw e
  end.

(** [for (const x of xs) ys.push(f(x))], where [f] may throw. *)
Fixpoint forEach {A B : Type} (f : A -> result B) (xs : list A) : result (list B) :=
  match xs with
  | [] => Ok []
  | x :: xs' => y ← f x; ys ← forEach f xs'; Ok (y :: ys)
  end.

(** ** Strings *)

Definition chars_of (s : string) : list ascii := list_ascii_of_string s.
Definition string_of (cs : list ascii) : string := string_of_list_ascii cs.

(** [parts.join(sep)] with the empty separator. *)
Definition join_empty (parts : list string) : string := String.concat EmptyString parts.

(** ** The tokenizer: [segmentString]

    [/[a-z0-9-]+|[^a-z0-9-]+/gi]: without the [u] flag, [i] folds only the
    ASCII letters onto [a-z], so the first class is the ASCII letters, the
    digits and the hyphen, and the second class is every other unit. *)

Definition isWordChar (c : ascii) : bool :=
  let n := N_of_ascii c in
  ((97 <=? n) && (n <=? 122) || (65 <=? n) && (n <=? 90)
   || (48 <=? n) && (n <=? 57) || (n =? 45))%N.

Arguments isWordChar : simpl never.

(** Does [c] extend the run that [tok] starts? *)
Definition sameClass (c : ascii) (tok : string) : bool :=
  match tok with
  | EmptyString => false
  | String d _ => Bool.eqb (isWordChar c) (isWordChar d)
  end.

(** The matches of the pattern are the maximal runs of one class; each unit
    belongs to exactly one class, so no unit is skipped between matches. *)
Fixpoint segmentString (s : string) : list string :=
  match s with
  | EmptyString => []
  | String c s' =>
      match segmentString s' with
      | tok :: toks =>
          if sameClass c tok then String c tok :: toks
          else String c EmptyString :: tok :: toks
      | [] => [String c EmptyString]
      end
  end.

(** ** Edits

    A change object of the differ: [value], [count], [added], [removed].
    The differ yields arrays of tokens as values; [diffSegmented] replaces
    them by the joined string. *)

Record Change (V : Type) : Type := mkChange {
  value : V;
  count : nat;
  added : bool;
  removed : bool
}.

Arguments mkChange {V} _ _ _ _.
Arguments value {V} _.
Arguments count {V} _.
Arguments added {V} _.
Arguments removed {V} _.

Definition Differ : Type := list string -> list string -> list (Change (list string)).

(** ** The sequence differ

    [jsdiff.diffArrays] belongs to the [diff] package, not to this
    repository.  The merger below is parametric in it; [diffArrays] is the
    instance used for the worked examples. *)

(** Modelled from the spec: one step of an edit path of the Sequence Differ
    (section 4.2, missing with the [diff] package): a token kept, removed
    from the old array, or added from the new one. *)
Inductive Op : Type :=
| Keep (tok : string)
| Del (tok : string)
| Ins (tok : string).

(** Modelled from the spec: the length of a longest common subsequence of
    two token arrays, for the Sequence Differ of section 4.2 (missing with
    the [diff] package). *)
Fixpoint lcsLength (xs : list string) : list string -> nat :=
  fix inner (ys : list string) : nat :=
    match xs, ys with
    | [], _ => O
    | _, [] => O
    | x :: xs', y :: ys' =>
        if String.eqb x y then S (lcsLength xs' ys')
        else Nat.max (lcsLength xs' ys) (inner ys')
    end.

(** Modelled from the spec: the edit path of the Sequence Differ of section
    4.2 (missing with the [diff] package) along a longest common subsequence:
    equal heads are kept (the earliest match), otherwise the old token is
    dropped when that loses nothing, and the new token is inserted when it
    does. *)
Fixpoint lcsOps (xs : list string) : list string -> list Op :=
  fix inner (ys : list string) : list Op :=
    match xs, ys with
    | [], _ => map Ins ys
    | _, [] => map Del xs
    | x :: xs', y :: ys' =>
        if String.eqb x y then Keep x :: lcsOps xs' ys'
        else if (lcsLength xs ys' <=? lcsLength xs' ys)%nat
             then Del x :: lcsOps xs' ys
             else Ins y :: inner ys'
    end.

Definition unchangedEdit (toks : list string) : Change (list string) :=
  mkChange toks (length toks) false false.
Definition removedEdit (toks : list string) : Change (list string) :=
  mkChange toks (length toks) false true.
Definition addedEdit (toks : list string) : Change (list string) :=
  mkChange toks (length toks) true false.

Definition pushFront (tok : string) (e : Change (list string)) : Change (list string) :=
  mkChange (tok :: value e) (S (count e)) (added e) (removed e).

(** Modelled from the spec: the edit script of the Sequence Differ of
    section 4.2 (missing with the [diff] package), built from the back:
    consecutive operations of one kind form one edit, and in a gap between
    two kept runs the removed tokens come before the added ones. *)
Definition consOp (op : Op) (script : list (Change (list string)))
  : list (Change (list string)) :=
  match op, script with
  | Keep tok, e :: rest =>
      if negb (added e) && negb (removed e) then pushFront tok e :: rest
      else unchangedEdit [tok] :: script
  | Keep tok, [] => [unchangedEdit [tok]]
  | Del tok, e :: rest =>
      if removed e then pushFront tok e :: rest
      else removedEdit [tok] :: script
  | Del tok, [] => [removedEdit [tok]]
  | Ins tok, e :: rest =>
      if added e then pushFront tok e :: rest
      else if removed e then
        match rest with
        | e' :: rest' =>
            if added e' then e :: pushFront tok e' :: rest'
            else e :: addedEdit [tok] :: rest
        | [] => [e; addedEdit [tok]]
        end
      else addedEdit [tok] :: script
  | Ins tok, [] => [addedEdit [tok]]
  end.

(** Modelled from the spec: the Sequence Differ of section 4.2, which the
    source takes from the [diff] package ([jsdiff.diffArrays]), is not part
    of the repository.  It is an array diff along a longest common
    subsequence: [unchanged] for the matched tokens, [removed] and [added]
    for the gaps, in the original order. *)
Definition diffArrays : Differ :=
  fun left right => fold_right consOp [] (lcsOps left right).

(** ** [diffSegmented] *)

Section Merge.

Variable differ : Differ.

Definition diffSegmented (left right : string) : list (Change string) :=
  map (fun m =>
         let v := join_empty (value m) in
         mkChange v (String.length v) (added m) (removed m))
      (differ (segmentString left) (segmentString right)).

(** ** The anchor finder (lines 44 to 65) *)

(** [for (let i = 0; i < edit.value.length; i++)] of a non-added edit. *)
Fixpoint markChars (n : nat) (isRemoved : bool) (unchanged : gset Z) (ptr : Z)
  : gset Z * Z :=
  match n with
  | O => (unchanged, ptr)
  | S n' =>
      markChars n' isRemoved
        (if negb isRemoved then {[ptr]} ∪ unchanged else unchanged) (ptr + 1)
  end.

(** [for (const edit of diff)] *)
Fixpoint markEdits (diff : list (Change string)) (unchanged : gset Z) (ptr : Z)
  : gset Z * Z :=
  match diff with
  | [] => (unchanged, ptr)
  | edit :: diff' =>
      if negb (added edit) then
        let '(unchanged', ptr') :=
          markChars (String.length (value edit)) (removed edit) unchanged ptr in
        markEdits diff' unchanged' ptr'
      else markEdits diff' unchanged ptr
  end.

Definition unchangedSet (reference : string) (diff : list (Change string))
  : result (gset Z) :=
  let '(unchanged, ptr) := markEdits diff ∅ 0 in
  if negb (ptr =? Z.of_nat (String.length reference)) then Throw DiffCoverageMismatch
  else Ok unchanged.

(** ** The range partitioner (lines 73 to 119) *)

Record Range : Type := mkRange { start : Z; end_ : Z }.

(** [unchangedCommon = unchangedSets[0]], then intersected with every set. *)
Definition intersectAll (unchangedSets : list (gset Z)) : result (gset Z) :=
  match unchangedSets with
  | [] => Throw TypeError
  | first :: _ => Ok (fold_left (fun common unchanged => common ∩ unchanged) unchangedSets first)
  end.

(** Lines 44 to 76: one set per diff, then their intersection. *)
Definition unchangedCommonOf (reference : string) (diffs : list (list (Change string)))
  : result (gset Z) :=
  unchangedSets ← forEach (unchangedSet reference) diffs;
  intersectAll unchangedSets.

Definition has (s : gset Z) (ptr : Z) : bool := bool_decide (ptr ∈ s).

(** [for (let ptr = 0; ptr < strings[0].length + 1; ptr++)], with [n] the
    iterations left. *)
Fixpoint scanRanges (unchangedCommon : gset Z) (n : nat) (ptr : Z)
    (rangeActive : bool) (rangeStart : Z) (unchangedRanges : list Range) : list Range :=
  match n with
  | O => unchangedRanges
  | S n' =>
      if has unchangedCommon ptr && negb rangeActive then
        scanRanges unchangedCommon n' (ptr + 1) true ptr unchangedRanges
      else if negb (has unchangedCommon ptr) && rangeActive then
        scanRanges unchangedCommon n' (ptr + 1) false rangeStart
          (unchangedRanges ++ [mkRange rangeStart ptr])
      else scanRanges unchangedCommon n' (ptr + 1) rangeActive rangeStart unchangedRanges
  end.

Definition unchangedRangesOf (unchangedCommon : gset Z) (len : nat) : list Range :=
  scanRanges unchangedCommon (len + 1) 0 false (-1) [].

Definition augment (unchangedRanges : list Range) (len : nat) : list Range :=
  [mkRange (-1) 0] ++ unchangedRanges
    ++ [mkRange (Z.of_nat len) (Z.of_nat len + 1)].

(** [for (let i = 0; i < unchangedRangesAugmented.length - 1; i++)]: the
    gaps between neighbours [i] and [i + 1]. *)
Fixpoint gapsBetween (augmented : list Range) : list Range :=
  match augmented with
  | this :: (next :: _) as rest =>
      if negb (end_ this =? start next)
      then mkRange (end_ this) (start next) :: gapsBetween rest
      else gapsBetween rest
  | _ => []
  end.

Definition varyingRangesOf (unchangedRanges : list Range) (len : nat) : list Range :=
  gapsBetween (augment unchangedRanges len).

(** ** The variant extractor (lines 125 to 194) *)

(** An element of [chars]: [ptr], [value] (here [cvalue]) and
    [countAdjacent]. *)
Record CharEntry : Type := mkChar {
  ptr : Z;
  cvalue : ascii;
  countAdjacent : bool
}.

(** The units of an added edit all carry the same [ptr]. *)
Definition addedChars (v : string) (p : Z) : list CharEntry :=
  map (fun c => mkChar p c true) (chars_of v).

(** The units of a non-added edit: [ptr] advances for each, and the unit is
    recorded unless the edit is a removal. *)
Fixpoint keptChars (v : list ascii) (isRemoved : bool) (p : Z) : list CharEntry * Z :=
  match v with
  | [] => ([], p)
  | c :: v' =>
      let '(chars, p') := keptChars v' isRemoved (p + 1) in
      (if negb isRemoved then mkChar p c false :: chars else chars, p')
  end.

(** [for (const edit of diff)] of the second pass. *)
Fixpoint charsOf (diff : list (Change string)) (p : Z) : list CharEntry :=
  match diff with
  | [] => []
  | edit :: diff' =>
      if added edit then addedChars (value edit) p ++ charsOf diff' p
      else
        let '(chars, p') := keptChars (chars_of (value edit)) (removed edit) p in
        chars ++ charsOf diff' p'
  end.

(** In the three loops below [rest] is [chars] from index [idx] on, so that
    [chars[idx]] is the head of [rest], [idx += 1] drops it, and
    [idx >= chars.length] holds when nothing is left.  Reading [chars[idx].ptr]
    with nothing left is the [TypeError] of a property of [undefined]. *)

(** [while (chars[idx].ptr < range.start)]; the boolean is [done]. *)
Fixpoint skipBefore (rangeStart : Z) (rest : list CharEntry)
  : result (list CharEntry * bool) :=
  match rest with
  | [] => Throw TypeError
  | c :: rest' =>
      if ptr c <? rangeStart then
        match rest' with
        | [] => Ok ([], true)
        | _ :: _ => skipBefore rangeStart rest'
        end
      else Ok (rest, false)
  end.

(** [while (chars[idx].ptr <= range.end)] *)
Fixpoint takeWithin (rangeEnd : Z) (rest : list CharEntry) (varyingPart : list ascii)
  : result (list CharEntry * bool * list ascii) :=
  match rest with
  | [] => Throw TypeError
  | c :: rest' =>
      if ptr c <=? rangeEnd then
        let varyingPart' :=
          if (ptr c <? rangeEnd) || countAdjacent c
          then varyingPart ++ [cvalue c] else varyingPart in
        match rest' with
        | [] => Ok ([], true, varyingPart')
        | _ :: _ => takeWithin rangeEnd rest' varyingPart'
        end
      else Ok (rest, false, varyingPart)
  end.

(** [for (const range of varyingRanges)] *)
Fixpoint extractParts (varyingRanges : list Range) (rest : list CharEntry)
    (varyingParts : list string) : result (list string) :=
  match varyingRanges with
  | [] => Ok varyingParts
  | range :: ranges' =>
      match rest with
      | [] => Throw TypeError
      | c :: _ =>
          if ptr c >? end_ range then extractParts ranges' rest varyingParts
          else
            '(rest1, done1) ← skipBefore (start range) rest;
            if (done1 : bool) then Ok varyingParts
            else
              '(rest2, done2, varyingPart) ← takeWithin (end_ range) rest1 [];
              let varyingParts' := varyingParts ++ [string_of varyingPart] in
              if (done2 : bool) then Ok varyingParts'
              else extractParts ranges' rest2 varyingParts'
      end
  end.

Definition varyingPartsOf (varyingRanges : list Range) (diff : list (Change string))
  : result (list string) :=
  extractParts varyingRanges (charsOf diff 0) [].

(** ** The composer (lines 196 to 223) *)

(** [variants.add(v)]: a [Set] keeps the first occurrence, in insertion
    order.  [None] is [undefined], the value of [list[varyingIdx]] past the
    end of [list]. *)
Definition setAdd (variants : list (option string)) (v : option string)
  : list (option string) :=
  if bool_decide (v ∈ variants) then variants else variants ++ [v].

Definition variantsAt (varyingLists : list (list string)) (varyingIdx : nat)
  : list (option string) :=
  fold_left (fun variants list => setAdd variants (list !! varyingIdx)) varyingLists [].

(** The order of [sort()] without a comparator: [undefined] goes last, the
    rest is compared as strings, unit by unit. *)
Definition sortLe (a b : option string) : bool :=
  match a, b with
  | _, None => true
  | None, Some _ => false
  | Some x, Some y => String.leb x y
  end.

Fixpoint sortInsert (v : option string) (sorted : list (option string))
  : list (option string) :=
  match sorted with
  | [] => [v]
  | w :: sorted' => if sortLe v w then v :: sorted else w :: sortInsert v sorted'
  end.

Definition sort (l : list (option string)) : list (option string) :=
  fold_right sortInsert [] l.

(** [join(sep)] renders [undefined] as the empty string. *)
Definition join (sep : string) (l : list (option string)) : string :=
  String.concat sep (map (default EmptyString) l).

Definition bracket (varyingLists : list (list string)) (varyingIdx : nat) : string :=
  "{" +:+ join ", " (sort (variantsAt varyingLists varyingIdx)) +:+ "}".

(** [s.slice(start, end)] *)
Definition slice (s : string) (from to : Z) : string :=
  let len := Z.of_nat (String.length s) in
  let clamp i := if i <? 0 then Z.max (len + i) 0 else Z.min i len in
  let a := clamp from in
  let b := clamp to in
  substring (Z.to_nat a) (Z.to_nat (Z.max (b - a) 0)) s.

(** A value together with the equation that names it, to keep the test of a
    loop in scope of its body. *)
Definition inspect {A : Type} (a : A) : {b : A | a = b} := exist _ a eq_refl.

Section Composer.

Variable reference : string.
Variable unchangedRanges varyingRanges : list Range.
Variable varyingLists : list (list string).

(** The [while] loop of lines 200 to 221; every turn advances one of the two
    indices, which bounds the number of turns. *)
Equations? composeLoop (onVarying : bool) (varyingIdx unchangedIdx : nat)
    (combined : list string) : list string
    by wf ((length varyingRanges - varyingIdx)
           + (length unchangedRanges - unchangedIdx))%nat lt :=
  composeLoop true varyingIdx unchangedIdx combined
    with decide (varyingIdx < length varyingRanges)%nat := {
    | left _ =>
        composeLoop false (S varyingIdx) unchangedIdx
          (combined ++ [bracket varyingLists varyingIdx]);
    | right _ => combined };
  composeLoop false varyingIdx unchangedIdx combined
    with inspect (unchangedRanges !! unchangedIdx) := {
    | exist _ (Some range) inRange =>
        composeLoop true varyingIdx (S unchangedIdx)
          (combined ++ [slice reference (start range) (end_ range)]);
    | exist _ None _ => combined }.
Proof.
  - lia.
  - apply lookup_lt_Some in inRange. lia.
Qed.

End Composer.

(** ** [mergeStrings] (lines 15 to 224)

    [strings] is an array of strings; the [!strings] half of the first test
    (no array at all) throws the same error as the empty array. *)
Definition mergeStrings (strings : list string) : result string :=
  match strings with
  | [] => Throw EmptyInput
  | [only] => Ok only
  | reference :: _ =>
      let len := String.length reference in
      let diffs := map (diffSegmented reference) strings in
      unchangedCommon ← unchangedCommonOf reference diffs;
      let unchangedRanges := unchangedRangesOf unchangedCommon len in
      let varyingRanges := varyingRangesOf unchangedRanges len in
      varyingLists ← forEach (varyingPartsOf varyingRanges) diffs;
      match varyingRanges with
      | [] => Throw TypeError
      | first :: _ =>
          let onVarying := start first =? 0 in
          Ok (join_empty
                (composeLoop reference unchangedRanges varyingRanges varyingLists
                   onVarying 0 0 []))
      end
  end.

End Merge.

(** The merger over the modelled differ. *)
Definition merge : list string -> result string := mergeStrings diffArrays.


(** ** The callers of the merger in [src/utils.js]

    An alert of the payload, as far as lines 427 to 437 read it: its
    [status], [annotations.summary] and [labels.alertname] ([None] when the
    object has no such property). *)
Record Alert : Type := mkAlert {
  status : string;
  summaryAnnotation : option string;
  alertname : option string
}.

(** [alert.annotations.summary || alert.labels.alertname] (line 433): the
    left operand unless it is [undefined] or the empty string. *)
Definition alertSummary (alert : Alert) : option string :=
  match summaryAnnotation alert with
  | Some (String c s) => Some (String c s)
  | _ => alertname alert
  end.

(** [[...new Set(data.alerts.map(alert => alert.status))].sort()] (lines 427
    and 428). *)
Definition sortedStatuses (alerts : list Alert) : list (option string) :=
  sort (fold_left setAdd (map (fun alert => Some (status alert)) alerts) []).

(** Lines 429 to 435: the alerts of one status. *)
Definition alertsOfStatus (alerts : list Alert) (st : option string) : list Alert :=
  List.filter (fun alert => bool_decide (Some (status alert) = st)) alerts.

(** [mergeStrings] on an array that may hold [undefined]: a single element is
    returned as it is; with more, [segmentString] reads [matchAll] of every
    element at line 34, before anything else can throw. *)
Definition mergeSummaries (differ : Differ) (summaries : list (option string))
  : result (option string) :=
  match summaries with
  | [] => Throw EmptyInput
  | [only] => Ok only
  | _ =>
      match mapM id summaries with
      | Some strings => out ← mergeStrings differ strings; Ok (Some out)
      | None => Throw TypeError
      end
  end.

Section FormatAlerts.

Variable differ : Differ.

(** Lines 439 to 521, the markup of one status group from its status, its
    alerts and their merged summary, and lines 524 to 575, the links, are not
    modelled: they build strings from the labels, the environment, the clock
    and [URL], and are taken as they come. *)
Variable renderGroup : option string -> list Alert -> option string -> result (list string).
Variable renderLinks : list Alert -> result (list string).

(** [formatAlerts] (lines 424 to 578): for every status in order, the merge
    of line 437 and then the markup of the group; the links; the join. *)
Definition formatAlerts (alerts : list Alert) : result string :=
  groups ← forEach
    (fun st =>
       let group := alertsOfStatus alerts st in
       summary ← mergeSummaries differ (map alertSummary group);
       renderGroup st group summary)
    (sortedStatuses alerts);
  links ← renderLinks alerts;
  Ok (join_empty (concat groups ++ links)).

(** Line 597, the markup of a single alert, is not modelled either. *)
Variable formatAlert : Alert -> result string.

(** [parseAlerts] (lines 580 to 600); [alerts] is [data.alerts], [None] when
    it is missing, and [respectGroupBy] is [process.env.RESPECT_GROUPBY]. *)
Definition parseAlerts (alerts : option (list Alert)) (respectGroupBy : option string)
  : result (list string) :=
  match alerts with
  | None => Ok []
  | Some alerts =>
      if bool_decide (respectGroupBy = Some "1") then
        message ← formatAlerts alerts; Ok [message]
      else forEach formatAlert alerts
  end.

End FormatAlerts.

(** ** [getRoomForReceiver] (lines 234 to 250) *)

(** [s.split(sep)] for a separator of one unit. *)
Fixpoint split (sep : ascii) (s : string) : list string :=
  match s with
  | EmptyString => [EmptyString]
  | String c s' =>
      if Ascii.eqb c sep then EmptyString :: split sep s'
      else
        match split sep s' with
        | piece :: pieces => String c piece :: pieces
        | [] => [String c EmptyString]
        end
  end.

(** What the function returns: [false], [undefined] or a string. *)
Inductive RoomId : Type :=
| NoRoom
| UndefinedRoom
| Room (id : string).

(** [for (let config of roomConfigs)]; [receiver] is [None] when it is not a
    string, which no [roomConfig[0]] is identical to. *)
Fixpoint findRoom (receiver : option string) (roomConfigs : list string) : RoomId :=
  match roomConfigs with
  | [] => NoRoom
  | config :: rest =>
      let roomConfig := split "/" config in
      if bool_decide (roomConfig !! 0%nat = receiver) then
        match roomConfig !! 1%nat with
        | Some room => Room room
        | None => UndefinedRoom
        end
      else findRoom receiver rest
  end.

(** [matrixRooms] is [process.env.MATRIX_ROOMS]; [split] of [undefined]
    throws. *)
Definition getRoomForReceiver (matrixRooms : option string) (receiver : option string)
  : result RoomId :=
  match matrixRooms with
  | None => Throw TypeError
  | Some rooms => Ok (findRoom receiver (split "|" rooms))
  end.

(** ** [passwordsEqual] and the gate of [postAlerts] in [src/routes.js] *)

(** [Buffer.from(s)]: the UTF-8 bytes of a string; a unit below 128 is one
    byte, a unit from 128 to 255 two. *)
Definition utf8Unit (c : ascii) : list N :=
  let n := N_of_ascii c in
  if (n <? 128)%N then [n] else [(192 + n / 64)%N; (128 + n mod 64)%N].

Definition bufferFrom (s : string) : list N := flat_map utf8Unit (chars_of s).

(** What [passwordsEqual] gives to the [if] that reads it: a truthy value, a
    falsy one, or the [RangeError] of [crypto.timingSafeEqual] on buffers of
    different byte lengths. *)
Inductive Checked : Type :=
| Truthy
| Falsy
| ThrowsRangeError.

Definition timingSafeEqual (x y : list N) : Checked :=
  if negb (length x =? length y)%nat then ThrowsRangeError
  else if bool_decide (x = y) then Truthy else Falsy.

(** Line 7; [None] is [undefined], and the empty string is falsy. *)
Definition passwordsEqual (a b : option string) : Checked :=
  match a, b with
  | Some (String ca sa), Some (String cb sb) =>
      if (String.length (String ca sa) =? String.length (String cb sb))%nat
      then timingSafeEqual (bufferFrom (String ca sa)) (bufferFrom (String cb sb))
      else Falsy
  | _, _ => Falsy
  end.

(** The answers of [postAlerts] before it reads the payload. *)
Inductive Gate : Type :=
| Status500
| Status403
| Proceeds
| GateThrows.

(** Lines 15 to 35 of [postAlerts]: [expectedSecret] is
    [process.env.APP_ALERTMANAGER_SECRET], [querySecret] is
    [req.query.secret] and [authorization] is [req.get('authorization')]. *)
Definition postAlertsGate (expectedSecret querySecret authorization : option string)
  : Gate :=
  match expectedSecret with
  | Some (String c s) =>
      let secret := String c s in
      match passwordsEqual querySecret (Some secret) with
      | ThrowsRangeError => GateThrows
      | byQuery =>
          match passwordsEqual authorization (Some ("Bearer " +:+ secret)) with
          | ThrowsRangeError => GateThrows
          | byHeader =>
              match byQuery, byHeader with
              | Falsy, Falsy => Status403
              | _, _ => Proceeds
              end
          end
      end
  | _ => Status500
  end.

(** ** Notions of the specification, to state the properties with *)

(** All units of [tok] are of the class [w]. *)
Fixpoint allOfClass (w : bool) (tok : string) : bool :=
  match tok with
  | EmptyString => true
  | String c tok' => Bool.eqb (isWordChar c) w && allOfClass w tok'
  end.

Definition classOf (tok : string) : bool :=
  match tok with
  | EmptyString => false
  | String c _ => isWordChar c
  end.

(** Neighbouring tokens are of different classes. *)
Fixpoint alternating (toks : list string) : bool :=
  match toks with
  | tok :: (tok' :: _) as rest =>
      negb (Bool.eqb (classOf tok) (classOf tok')) && alternating rest
  | _ => true
  end.

(** Where the cursor of section 4.3 stands after a whole edit script: it
    starts at 0 and advances once per unit of every edit that is not added. *)
Definition cursorAfter (diff : list (Change string)) : Z :=
  fold_left
    (fun cursor edit =>
       if added edit then cursor
       else cursor + Z.of_nat (String.length (value edit)))
    diff 0.

(** An edit that is neither added nor removed. *)
Definition isUnchanged {V : Type} (e : Change V) : Prop :=
  added e = false /\ removed e = false.

(** The order that [sort()] puts the variants in, as a relation. *)
Definition sortBefore (a b : option string) : Prop := sortLe a b = true.

(** In a state of the composer's loop, the varying ranges left are not more
    than the turns left for them. *)
Definition enoughTurns (unchangedRanges varyingRanges : list Range)
    (onVarying : bool) (varyingIdx unchangedIdx : nat) : Prop :=
  if onVarying
  then (length varyingRanges + unchangedIdx <= length unchangedRanges + varyingIdx + 1)%nat
  else (length varyingRanges + unchangedIdx <= length unchangedRanges + varyingIdx)%nat.

(** The two sides of an edit path and of an edit script: the old array is
    what is kept or removed, the new array what is kept or added. *)
Definition opOld (op : Op) : list string :=
  match op with Keep tok | Del tok => [tok] | Ins _ => [] end.
Definition opNew (op : Op) : list string :=
  match op with Keep tok | Ins tok => [tok] | Del _ => [] end.

Definition oldSide {V : Type} (script : list (Change V)) : list V :=
  map value (List.filter (fun e => negb (added e)) script).
Definition newSide {V : Type} (script : list (Change V)) : list V :=
  map value (List.filter (fun e => negb (removed e)) script).

(** No edit is both added and removed. *)
Definition exclusive {V : Type} (script : list (Change V)) : Prop :=
  Forall (fun e => added e && removed e = false) script.

(** An offset lies in a range, which is closed at its start and open at its
    end. *)
Definition inRange (r : Range) (x : Z) : Prop := start r <= x < end_ r.

(** Ranges in increasing order from [lo] on: none is empty, and each starts
    after the end of the one before, with at least one offset between. *)
Fixpoint separated (lo : Z) (ranges : list Range) : Prop :=
  match ranges with
  | [] => True
  | r :: rest => lo <= start r /\ start r < end_ r /\ separated (end_ r + 1) rest
  end.

(** Two arrays taken in turn, starting with the first, until the array whose
    turn it is has nothing left. *)
Fixpoint interleave {A : Type} (xs ys : list A) {struct xs} : list A :=
  match xs with
  | [] => []
  | x :: xs' =>
      x :: match ys with
           | [] => []
           | y :: ys' => y :: interleave xs' ys'
           end
  end.

(** The pieces of the composer: the brackets of the varying ranges and the
    texts of the anchor ranges, taken in turn from the kind the loop starts
    with. *)
Definition weave {A : Type} (onVarying : bool) (brackets slices : list A) : list A :=
  if onVarying then interleave brackets slices else interleave slices brackets.

(** The edits whose units the second pass records: the added ones and the
    ones that are not removed. *)
Definition shownValues (diff : list (Change string)) : list string :=
  map value (List.filter (fun e => added e || negb (removed e)) diff).

(** No unit of [s] is the separator. *)
Definition freeOf (sep : ascii) (s : string) : bool :=
  forallb (fun c => negb (Ascii.eqb c sep)) (chars_of s).

(** The value of [MATRIX_ROOMS] for a list of receivers and their rooms:
    [receiver/room] entries with [|] between them. *)
Definition encodeRooms (rooms : list (string * string)) : string :=
  String.concat "|" (map (fun entry => fst entry +:+ "/" +:+ snd entry) rooms).

(** Neither the receiver nor the room of an entry holds a separator. *)
Definition plainEntry (entry : string * string) : bool :=
  freeOf "|" (fst entry) && freeOf "/" (fst entry)
  && freeOf "|" (snd entry) && freeOf "/" (snd entry).

(** The number of units of a string that take two bytes in UTF-8. *)
Definition twoByteUnits (s : string) : nat :=
  length (List.filter (fun c => negb (N_of_ascii c <? 128)%N) (chars_of s)).

(** The offsets [p], [p + 1], ... of a run of [n] units, and the offsets of
    a range. *)
Fixpoint offsetsFrom (p : Z) (n : nat) : list Z :=
  match n with
  | O => []
  | S n' => p :: offsetsFrom (p + 1) n'
  end.

Definition rangeOffsets (r : Range) : list Z :=
  offsetsFrom (start r) (Z.to_nat (end_ r - start r)).

(** The unit of a string at an offset. *)
Definition unitAt (s : string) (x : Z) : ascii :=
  default Ascii.zero (chars_of s !! Z.to_nat x).

(** The anchor text of a template: the slices of the reference at the
    unchanged ranges, one after the other (line 216). *)
Definition anchorText (reference : string) (unchangedRanges : list Range) : string :=
  join_empty (map (fun r => slice reference (start r) (end_ r)) unchangedRanges).

(** The entries of the second pass for a run of unchanged units from
    offset [p] on. *)
Fixpoint entriesFrom (p : Z) (units : list ascii) : list CharEntry :=
  match units with
  | [] => []
  | c :: units' => mkChar p c false :: entriesFrom (p + 1) units'
  end.

(** The entries of the reference itself from offset [q] on. *)
Definition suffixOf (reference : string) (q : Z) : list CharEntry :=
  entriesFrom q (drop (Z.to_nat q) (chars_of reference)).

(** The slice of the reference at a range. *)
Definition sliceAt (reference : string) (r : Range) : string :=
  slice reference (start r) (end_ r).

(** The units of the reference between two offsets. *)
Definition unitsBetween (reference : string) (a b : Z) : list ascii :=
  map (unitAt reference) (offsetsFrom a (Z.to_nat (b - a))).

(** * Properties *)

(** ** Worked examples *)

(** C1: the two host summaries merge into one template with a bracket. *)
Theorem merge_two_hosts :
  merge ["Error on host-1"; "Error on host-2"] = Ok "Error on {host-1, host-2}".
Proof. vm_compute. reflexivity. Qed.

(** C2: a list of exactly one string is returned as it is, whatever the
    string (the empty one included) and whatever the differ. *)
Theorem merge_singleton (differ : Differ) (s : string) :
  mergeStrings differ [s] = Ok s /\ mergeStrings differ [EmptyString] = Ok EmptyString.
Proof. split; reflexivity. Qed.

(** C4: no strings at all: the call throws [EmptyInput] and returns nothing. *)
Theorem merge_empty_input (differ : Differ) :
  mergeStrings differ [] = Throw EmptyInput
  /\ forall s, mergeStrings differ [] <> Ok s.
Proof. split; [reflexivity | intros s; discriminate]. Qed.

(** C5, as the specification states it: ["abc"] and ["abd"] do not merge
    into ["ab{c, d}"]. *)
Lemma merge_abc_abd_not_split :
  merge ["abc"; "abd"] <> Ok "ab{c, d}".
Proof. vm_compute. discriminate. Qed.

(** C5, amended: each of ["abc"] and ["abd"] is one word-class token, the
    tokens differ, and the whole token is the varying part. *)
Theorem merge_abc_abd_whole_token :
  segmentString "abc" = ["abc"] /\ segmentString "abd" = ["abd"]
  /\ merge ["abc"; "abd"] = Ok "{abc, abd}".
Proof. repeat split; vm_compute; reflexivity. Qed.

(** ** The tokenizer *)

Lemma append_cons (c : ascii) (a b : string) :
  String c a +:+ b = String c (a +:+ b).
Proof. reflexivity. Qed.

Lemma append_empty_l (a : string) : EmptyString +:+ a = a.
Proof. reflexivity. Qed.

Lemma append_empty_r (a : string) : a +:+ EmptyString = a.
Proof. induction a as [|c a IH]; [reflexivity | now rewrite append_cons, IH]. Qed.

Lemma append_assoc (a b c : string) : (a +:+ b) +:+ c = a +:+ (b +:+ c).
Proof.
  induction a as [|x a IH]; [reflexivity | now rewrite !append_cons, IH].
Qed.

Lemma join_empty_cons (tok : string) (toks : list string) :
  join_empty (tok :: toks) = tok +:+ join_empty toks.
Proof.
  unfold join_empty. destruct toks as [|tok' toks]; simpl.
  - now rewrite append_empty_r.
  - reflexivity.
Qed.

Lemma join_empty_app (xs ys : list string) :
  join_empty (xs ++ ys) = join_empty xs +:+ join_empty ys.
Proof.
  induction xs as [|x xs IH]; [reflexivity |].
  now rewrite <- app_comm_cons, !join_empty_cons, IH, append_assoc.
Qed.

(** No token is empty. *)
Lemma segmentString_nonempty (s : string) :
  Forall (fun tok => tok <> EmptyString) (segmentString s).
Proof.
  induction s as [|c s IH]; simpl; [constructor |].
  destruct (segmentString s) as [|tok toks]; [repeat constructor; discriminate |].
  inversion IH; subst.
  destruct (sameClass c tok); repeat constructor; auto; discriminate.
Qed.

Lemma segmentString_one_class (s : string) :
  Forall (fun tok => allOfClass (classOf tok) tok = true) (segmentString s).
Proof.
  induction s as [|c s IH]; simpl; [constructor |].
  destruct (segmentString s) as [|tok toks].
  - repeat constructor. simpl. now rewrite Bool.eqb_reflx.
  - inversion IH as [|? ? Htok Htoks]; subst.
    destruct (sameClass c tok) eqn:Hc.
    + constructor; [|assumption]. simpl. rewrite Bool.eqb_reflx. simpl.
      destruct tok as [|d tok]; [discriminate |]. simpl in Hc, Htok |- *.
      apply Bool.eqb_prop in Hc. now rewrite Hc.
    + repeat constructor; auto. simpl. now rewrite Bool.eqb_reflx.
Qed.

Lemma segmentString_maximal (s : string) :
  alternating (segmentString s) = true.
Proof.
  induction s as [|c s IH]; simpl; [reflexivity |].
  destruct (segmentString s) as [|tok toks] eqn:Hs; [reflexivity |].
  destruct (sameClass c tok) eqn:Hc.
  - destruct tok as [|d tok]; [discriminate |].
    simpl in Hc. apply Bool.eqb_prop in Hc.
    destruct toks as [|tok' toks]; [reflexivity |].
    simpl in IH |- *. now rewrite Hc.
  - assert (Hne : tok <> EmptyString).
    { pose proof (segmentString_nonempty s) as Hall. rewrite Hs in Hall.
      now inversion Hall. }
    destruct tok as [|d tok]; [congruence |].
    simpl in Hc. cbn [alternating classOf]. rewrite Hc. simpl.
    exact IH.
Qed.

(** The tokens of a string, joined in order, are the string. *)
Lemma join_segmentString (s : string) :
  join_empty (segmentString s) = s.
Proof.
  induction s as [|c s IH]; [reflexivity |].
  simpl. destruct (segmentString s) as [|tok toks].
  - simpl in IH. now subst s.
  - destruct (sameClass c tok).
    + rewrite join_empty_cons in IH |- *. now rewrite append_cons, IH.
    + rewrite join_empty_cons. now rewrite append_cons, append_empty_l, IH.
Qed.

Lemma chars_of_append (a b : string) :
  chars_of (a +:+ b) = chars_of a ++ chars_of b.
Proof.
  induction a as [|c a IH]; [reflexivity |].
  rewrite append_cons. simpl. now rewrite IH.
Qed.

Lemma chars_of_join_empty (toks : list string) :
  chars_of (join_empty toks) = concat (map chars_of toks).
Proof.
  induction toks as [|tok toks IH]; [reflexivity |].
  now rewrite join_empty_cons, chars_of_append, IH.
Qed.

(** C7: the tokens of a string, joined in order, are the string, for every
    string: the tokenizer keeps every unit, in its place, and adds none. *)
Theorem segmentString_join (s : string) :
  join_empty (segmentString s) = s
  /\ concat (map chars_of (segmentString s)) = chars_of s.
Proof.
  split; [apply join_segmentString |].
  now rewrite <- chars_of_join_empty, join_segmentString.
Qed.

(** ** The tokens are the maximal runs *)

Lemma segmentString_run (tok rest : string) (toks : list string) :
  tok <> EmptyString ->
  allOfClass (classOf tok) tok = true ->
  segmentString rest = toks ->
  match toks with
  | [] => True
  | next :: _ => next <> EmptyString /\ classOf next <> classOf tok
  end ->
  segmentString (tok +:+ rest) = tok :: toks.
Proof.
  intros Hne Hclass Hrest Hnext.
  induction tok as [|c tok IH]; [congruence |].
  rewrite append_cons. cbn [segmentString].
  destruct tok as [|d tok].
  - rewrite append_empty_l, Hrest. destruct toks as [|next toks]; [reflexivity |].
    destruct Hnext as [Hnextne Hdiff]. destruct next as [|e next]; [congruence |].
    simpl in Hdiff |- *.
    destruct (isWordChar c), (isWordChar e); simpl; congruence.
  - simpl in Hclass.
    apply andb_prop in Hclass as [_ Hclass]. apply andb_prop in Hclass as [Hd Hclass].
    apply Bool.eqb_prop in Hd.
    rewrite IH.
    + simpl. now rewrite Hd, Bool.eqb_reflx.
    + discriminate.
    + simpl. rewrite Bool.eqb_reflx. simpl. now rewrite Hd.
    + destruct toks as [|next toks]; [exact I |]. simpl in Hnext |- *.
      now rewrite Hd.
Qed.

(** Any split of a string into non-empty runs of one class each, neighbours
    of different classes, is the split that [segmentString] computes. *)
Lemma segmentString_unique (toks : list string) :
  Forall (fun tok => tok <> EmptyString) toks ->
  Forall (fun tok => allOfClass (classOf tok) tok = true) toks ->
  alternating toks = true ->
  segmentString (join_empty toks) = toks.
Proof.
  intros Hne Hclass. induction toks as [|tok toks IH]; intros Halt; [reflexivity |].
  apply Forall_cons in Hne as [Hne Hnes]. apply Forall_cons in Hclass as [Hc Hcs].
  rewrite join_empty_cons. apply segmentString_run; auto.
  - apply IH; auto. destruct toks as [|next toks]; [reflexivity |].
    simpl in Halt. now apply andb_prop in Halt as [_ ?].
  - destruct toks as [|next toks]; [exact I |].
    apply Forall_cons in Hnes as [Hnext _]. split; [exact Hnext |].
    cbn [alternating] in Halt. apply andb_prop in Halt as [Hdiff _].
    intros Heq. rewrite Heq, Bool.eqb_reflx in Hdiff. discriminate.
Qed.


(** ** Outcomes of loops that may throw *)

Lemma bind_Ok {A B : Type} (a : A) (k : A -> result B) :
  (Ok a ≫= k) = k a.
Proof. reflexivity. Qed.

Lemma bind_Throw {A B : Type} (e : error) (k : A -> result B) :
  (Throw e ≫= k) = Throw e.
Proof. reflexivity. Qed.

Lemma forEach_cons {A B : Type} (f : A -> result B) (x : A) (xs : list A) :
  forEach f (x :: xs) = (f x ≫= fun y => forEach f xs ≫= fun ys => Ok (y :: ys)).
Proof. reflexivity. Qed.

(** A loop throws what the body threw on one of the elements. *)
Lemma forEach_Throw {A B : Type} (f : A -> result B) (xs : list A) (e : error) :
  forEach f xs = Throw e -> exists x, In x xs /\ f x = Throw e.
Proof.
  induction xs as [|x xs IH]; [discriminate |].
  rewrite forEach_cons. destruct (f x) as [y|e'] eqn:Hx.
  - rewrite bind_Ok. destruct (forEach f xs) as [ys|e'']; [discriminate |].
    rewrite bind_Throw. intros [= ->].
    destruct IH as (x' & Hin & Hx'); [reflexivity |].
    exists x'. split; [now right | assumption].
  - rewrite bind_Throw. intros [= ->]. exists x. split; [now left | assumption].
Qed.

(** A loop whose body returns on every element returns. *)
Lemma forEach_Ok {A B : Type} (f : A -> result B) (xs : list A) :
  (forall x, In x xs -> exists y, f x = Ok y) ->
  exists ys, forEach f xs = Ok ys.
Proof.
  induction xs as [|x xs IH]; intros Hall; [now exists [] |].
  destruct (Hall x) as [y Hy]; [now left |].
  destruct IH as [ys Hys]; [intros x' Hin; apply Hall; now right |].
  exists (y :: ys). now rewrite forEach_cons, Hy, bind_Ok, Hys, bind_Ok.
Qed.

(** The results of a loop that returned, element by element. *)
Lemma forEach_Ok_inv {A B : Type} (f : A -> result B) (xs : list A) (ys : list B) :
  forEach f xs = Ok ys -> Forall2 (fun x y => f x = Ok y) xs ys.
Proof.
  revert ys. induction xs as [|x xs IH]; intros ys.
  - intros [= <-]. constructor.
  - rewrite forEach_cons. destruct (f x) as [y|e] eqn:Hx; [|discriminate].
    rewrite bind_Ok. destruct (forEach f xs) as [ys'|e]; [|discriminate].
    rewrite bind_Ok. intros [= <-]. constructor; auto.
Qed.

(** ** The anchor finder *)

Lemma markChars_ptr (n : nat) (r : bool) (U : gset Z) (p : Z) :
  snd (markChars n r U p) = p + Z.of_nat n.
Proof.
  revert U p. induction n as [|n IH]; intros U p; simpl; [lia |].
  rewrite IH. lia.
Qed.

Lemma markChars_elem (n : nat) (r : bool) (U : gset Z) (p x : Z) :
  x ∈ fst (markChars n r U p) <->
  x ∈ U \/ (r = false /\ p <= x < p + Z.of_nat n).
Proof.
  revert U p. induction n as [|n IH]; intros U p; simpl.
  - split; [now left | intros [H|[_ H]]; [assumption | lia]].
  - rewrite IH. destruct r; simpl.
    + split; [intros [H|[H _]]; [now left | discriminate]
             | intros [H|[H _]]; [now left | discriminate]].
    + rewrite elem_of_union, elem_of_singleton.
      split.
      * intros [[->|H]|[_ H]]; [right; split; [reflexivity | lia] | now left
                               | right; split; [reflexivity | lia]].
      * intros [H|[_ H]]; [left; now right |].
        destruct (decide (x = p)) as [->|Hne]; [left; now left |].
        right. split; [reflexivity | lia].
Qed.

(** The loop of lines 48 to 60 leaves [ptr] where the cursor of the
    specification stands. *)
Lemma markEdits_ptr (diff : list (Change string)) (U : gset Z) (p : Z) :
  snd (markEdits diff U p) =
  fold_left
    (fun cursor edit =>
       if added edit then cursor
       else cursor + Z.of_nat (String.length (value edit)))
    diff p.
Proof.
  revert U p. induction diff as [|edit diff IH]; intros U p; simpl; [reflexivity |].
  destruct (added edit); simpl; [apply IH |].
  destruct (markChars _ _ U p) as [U' p'] eqn:Hm.
  rewrite IH. f_equal.
  change p' with (snd (U', p')). rewrite <- Hm. apply markChars_ptr.
Qed.

Lemma unchangedSet_cursor (diff : list (Change string)) :
  snd (markEdits diff ∅ 0) = cursorAfter diff.
Proof. apply markEdits_ptr. Qed.

(** The anchor finder throws nothing but the coverage error, and throws it
    exactly when the cursor misses the end of the reference. *)
Lemma unchangedSet_Throw (reference : string) (diff : list (Change string)) (e : error) :
  unchangedSet reference diff = Throw e <->
  e = DiffCoverageMismatch /\ cursorAfter diff <> Z.of_nat (String.length reference).
Proof.
  unfold unchangedSet. rewrite <- unchangedSet_cursor.
  destruct (markEdits diff ∅ 0) as [U p]. simpl.
  destruct (Z.eqb_spec p (Z.of_nat (String.length reference))) as [Heq|Hne]; simpl.
  - split; [discriminate | intros [_ H]; contradiction].
  - split; [intros [= <-]; now split | intros [-> _]; reflexivity].
Qed.

Lemma unchangedSet_Ok (reference : string) (diff : list (Change string)) :
  cursorAfter diff = Z.of_nat (String.length reference) ->
  unchangedSet reference diff = Ok (fst (markEdits diff ∅ 0)).
Proof.
  intros Hc. unfold unchangedSet. rewrite <- unchangedSet_cursor in Hc.
  destruct (markEdits diff ∅ 0) as [U p]. simpl in *.
  subst p. now rewrite Z.eqb_refl.
Qed.

Lemma forEach_Ok_In {A B : Type} (f : A -> result B) (xs : list A) (ys : list B) (x : A) :
  forEach f xs = Ok ys -> In x xs -> exists y, In y ys /\ f x = Ok y.
Proof.
  intros Hok%forEach_Ok_inv. induction Hok as [|x' y' xs' ys' Hxy _ IH]; intros Hin.
  - destruct Hin.
  - destruct Hin as [->|Hin].
    + exists y'. split; [now left | assumption].
    + destruct (IH Hin) as (y & Hy & Hfy). exists y. split; [now right | assumption].
Qed.

Lemma forEach_length {A B : Type} (f : A -> result B) (xs : list A) (ys : list B) :
  forEach f xs = Ok ys -> length ys = length xs.
Proof.
  intros Hok%forEach_Ok_inv. induction Hok; simpl; congruence.
Qed.

(** ** The variant extractor throws on an exhausted list only *)

Lemma skipBefore_Ok (rangeStart : Z) (c : CharEntry) (rest : list CharEntry) :
  exists rest1 done1,
    skipBefore rangeStart (c :: rest) = Ok (rest1, done1)
    /\ (done1 = false -> rest1 <> []).
Proof.
  revert c. induction rest as [|c' rest IH]; intros c; simpl.
  - destruct (ptr c <? rangeStart); eexists _, _; (split; [reflexivity |]);
      [discriminate | intros _; discriminate].
  - destruct (ptr c <? rangeStart).
    + apply IH.
    + eexists _, _. split; [reflexivity | intros _; discriminate].
Qed.

Lemma takeWithin_Ok (rangeEnd : Z) (c : CharEntry) (rest : list CharEntry)
    (varyingPart : list ascii) :
  exists rest2 done2 varyingPart',
    takeWithin rangeEnd (c :: rest) varyingPart = Ok (rest2, done2, varyingPart')
    /\ (done2 = false -> rest2 <> []).
Proof.
  revert c varyingPart. induction rest as [|c' rest IH]; intros c varyingPart; simpl.
  - destruct (ptr c <=? rangeEnd); eexists _, _, _; (split; [reflexivity |]);
      [discriminate | intros _; discriminate].
  - destruct (ptr c <=? rangeEnd).
    + apply IH.
    + eexists _, _, _. split; [reflexivity | intros _; discriminate].
Qed.

Lemma extractParts_Ok (varyingRanges : list Range) (rest : list CharEntry)
    (varyingParts : list string) :
  rest <> [] -> exists parts, extractParts varyingRanges rest varyingParts = Ok parts.
Proof.
  revert rest varyingParts.
  induction varyingRanges as [|range ranges IH]; intros rest varyingParts Hrest; simpl.
  - now eexists.
  - destruct rest as [|c rest]; [congruence |].
    destruct (ptr c >? end_ range); [now apply IH |].
    destruct (skipBefore_Ok (start range) c rest) as (rest1 & done1 & -> & Hrest1).
    rewrite bind_Ok. destruct done1; [now eexists |].
    destruct rest1 as [|c1 rest1]; [now destruct Hrest1 |].
    destruct (takeWithin_Ok (end_ range) c1 rest1 []) as (rest2 & done2 & vp & -> & Hrest2).
    rewrite bind_Ok. destruct done2; [now eexists |].
    apply IH. now apply Hrest2.
Qed.

Lemma extractParts_Throw (varyingRanges : list Range) (rest : list CharEntry)
    (varyingParts : list string) (e : error) :
  extractParts varyingRanges rest varyingParts = Throw e ->
  e = TypeError /\ rest = [] /\ varyingRanges <> [].
Proof.
  intros Hthrow. destruct rest as [|c rest].
  - destruct varyingRanges; simpl in Hthrow; [discriminate |].
    injection Hthrow as <-. repeat split. discriminate.
  - destruct (extractParts_Ok varyingRanges (c :: rest) varyingParts) as [parts Hok];
      [discriminate | congruence].
Qed.

Lemma intersectAll_Throw (unchangedSets : list (gset Z)) (e : error) :
  intersectAll unchangedSets = Throw e -> e = TypeError /\ unchangedSets = [].
Proof. destruct unchangedSets; [intros [= <-]; now split | discriminate]. Qed.

(** Past the anchor finder nothing throws the coverage error. *)
Lemma unchangedCommonOf_Throw (reference : string)
    (diffs : list (list (Change string))) (e : error) :
  unchangedCommonOf reference diffs = Throw e ->
  (e = DiffCoverageMismatch
   /\ exists diff, In diff diffs
        /\ cursorAfter diff <> Z.of_nat (String.length reference))
  \/ (e = TypeError /\ diffs = []).
Proof.
  unfold unchangedCommonOf.
  destruct (forEach (unchangedSet reference) diffs) as [sets|e'] eqn:Hsets.
  - rewrite bind_Ok. intros [-> ->]%intersectAll_Throw. right. split; [reflexivity |].
    apply forEach_length in Hsets. now destruct diffs.
  - rewrite bind_Throw. intros [= ->]. left.
    apply forEach_Throw in Hsets as (diff & Hin & Hthrow).
    apply unchangedSet_Throw in Hthrow as [-> Hcur]. split; [reflexivity |].
    now exists diff.
Qed.

(** A merge that throws the coverage error has a script that misses the end
    of the reference. *)
Lemma mergeStrings_mismatch_inv (differ : Differ) (first second : string)
    (others : list string) :
  mergeStrings differ (first :: second :: others) = Throw DiffCoverageMismatch ->
  exists str, In str (first :: second :: others)
    /\ cursorAfter (diffSegmented differ first str)
       <> Z.of_nat (String.length first).
Proof.
  change (mergeStrings differ (first :: second :: others)) with
    (let diffs := map (diffSegmented differ first) (first :: second :: others) in
     unchangedCommonOf first diffs ≫= fun unchangedCommon =>
     let unchangedRanges := unchangedRangesOf unchangedCommon (String.length first) in
     let varyingRanges := varyingRangesOf unchangedRanges (String.length first) in
     forEach (varyingPartsOf varyingRanges) diffs ≫= fun varyingLists =>
     match varyingRanges with
     | [] => Throw TypeError
     | range :: _ =>
         Ok (join_empty
               (composeLoop first unchangedRanges varyingRanges varyingLists
                  (start range =? 0) 0 0 []))
     end).
  cbv zeta.
  destruct (unchangedCommonOf _ _) as [common|e] eqn:Hcommon.
  - rewrite bind_Ok.
    destruct (forEach _ _) as [lists|e] eqn:Hlists.
    + rewrite bind_Ok. now destruct (varyingRangesOf _ _).
    + rewrite bind_Throw. intros [= ->].
      apply forEach_Throw in Hlists as (diff & _ & Hthrow).
      now apply extractParts_Throw in Hthrow as [? _].
  - rewrite bind_Throw. intros [= ->].
    apply unchangedCommonOf_Throw in Hcommon as [[_ (diff & Hin & Hcur)]|[? _]];
      [|discriminate].
    apply in_map_iff in Hin as (str & <- & Hin). now exists str.
Qed.

(** C8: the anchor finder throws [DiffCoverageMismatch] on an edit script if
    and only if the cursor, advanced once per unit of every edit that is not
    added, does not stand at the length of the reference after the whole
    script; and a merge of two or more strings throws it if and only if the
    script of one of the strings is such. *)
Theorem coverage_mismatch_iff (differ : Differ) (first second : string)
    (others : list string) :
  let strings := first :: second :: others in
  let len := Z.of_nat (String.length first) in
  (forall diff : list (Change string),
      unchangedSet first diff = Throw DiffCoverageMismatch <-> cursorAfter diff <> len)
  /\ (mergeStrings differ strings = Throw DiffCoverageMismatch <->
      exists str, In str strings
        /\ cursorAfter (diffSegmented differ first str) <> len).
Proof.
  intros strings len. split.
  - intros diff. rewrite unchangedSet_Throw. intuition congruence.
  - split; [apply mergeStrings_mismatch_inv |].
    change (mergeStrings differ strings) with
      (let diffs := map (diffSegmented differ first) strings in
       unchangedCommonOf first diffs ≫= fun unchangedCommon =>
       let unchangedRanges := unchangedRangesOf unchangedCommon (String.length first) in
       let varyingRanges := varyingRangesOf unchangedRanges (String.length first) in
       forEach (varyingPartsOf varyingRanges) diffs ≫= fun varyingLists =>
       match varyingRanges with
       | [] => Throw TypeError
       | range :: _ =>
           Ok (join_empty
                 (composeLoop first unchangedRanges varyingRanges varyingLists
                    (start range =? 0) 0 0 []))
       end).
    cbv zeta.
    intros (str & Hin & Hcur).
    assert (Hthrow : unchangedSet first (diffSegmented differ first str)
                     = Throw DiffCoverageMismatch) by now apply unchangedSet_Throw.
    unfold unchangedCommonOf.
    destruct (forEach (unchangedSet first) _) as [sets|e] eqn:Hsets.
    + eapply forEach_Ok_In in Hsets as (y & _ & Hy);
        [|apply in_map; exact Hin]. congruence.
    + rewrite !bind_Throw. f_equal.
      apply forEach_Throw in Hsets as (diff & _ & Hd).
      now apply unchangedSet_Throw in Hd as [-> _].
Qed.

(** A differ that loses the old tokens makes the coverage error reachable. *)
Example coverage_mismatch_reachable :
  mergeStrings (fun _ _ => []) ["a"; "b"] = Throw DiffCoverageMismatch.
Proof. reflexivity. Qed.

(** ** Offsets recorded by the anchor finder *)

Lemma has_true (U : gset Z) (x : Z) : has U x = true <-> x ∈ U.
Proof. unfold has. apply bool_decide_eq_true. Qed.

Lemma has_false (U : gset Z) (x : Z) : has U x = false <-> x ∉ U.
Proof. unfold has. apply bool_decide_eq_false. Qed.

Lemma markEdits_ptr_le (diff : list (Change string)) (U : gset Z) (p : Z) :
  p <= snd (markEdits diff U p).
Proof.
  revert U p. induction diff as [|edit diff IH]; intros U p; simpl; [lia |].
  destruct (added edit); simpl; [apply IH |].
  destruct (markChars _ _ U p) as [U' p'] eqn:Hm.
  pose proof (markChars_ptr (String.length (value edit)) (removed edit) U p) as Hp.
  rewrite Hm in Hp. simpl in Hp. specialize (IH U' p'). lia.
Qed.

(** A script of unchanged edits only records every offset it walks over. *)
Lemma markEdits_all_unchanged (diff : list (Change string)) (U : gset Z) (p x : Z) :
  Forall isUnchanged diff ->
  x ∈ fst (markEdits diff U p) <-> x ∈ U \/ p <= x < snd (markEdits diff U p).
Proof.
  intros Hall. revert U p.
  induction Hall as [|edit diff [Ha Hr] _ IH]; intros U p; simpl.
  - split; [now left | intros [H|H]; [assumption | lia]].
  - rewrite Ha, Hr. simpl.
    destruct (markChars _ _ U p) as [U' p'] eqn:Hm.
    pose proof (markChars_ptr (String.length (value edit)) false U p) as Hp.
    pose proof (markChars_elem (String.length (value edit)) false U p x) as Hx.
    rewrite Hm in Hp, Hx. simpl in Hp, Hx.
    pose proof (markEdits_ptr_le diff U' p') as Hle.
    rewrite IH, Hx. intuition lia.
Qed.

(** ** The range partitioner on a reference that is all anchor *)

Lemma scanRanges_S (U : gset Z) (n : nat) (p : Z) (rangeActive : bool)
    (rangeStart : Z) (acc : list Range) :
  scanRanges U (S n) p rangeActive rangeStart acc =
  if has U p && negb rangeActive then scanRanges U n (p + 1) true p acc
  else if negb (has U p) && rangeActive then
    scanRanges U n (p + 1) false rangeStart (acc ++ [mkRange rangeStart p])
  else scanRanges U n (p + 1) rangeActive rangeStart acc.
Proof. reflexivity. Qed.

Lemma scanRanges_all_in (U : gset Z) (k : nat) (p rangeStart : Z) (acc : list Range) :
  (forall x, p <= x < p + Z.of_nat k -> x ∈ U) ->
  p + Z.of_nat k ∉ U ->
  scanRanges U (S k) p true rangeStart acc
  = acc ++ [mkRange rangeStart (p + Z.of_nat k)].
Proof.
  revert p. induction k as [|k IH]; intros p Hin Hout.
  - replace (p + Z.of_nat 0) with p in * by lia.
    apply has_false in Hout. simpl. now rewrite Hout.
  - assert (Hp : has U p = true) by (apply has_true, Hin; lia).
    rewrite scanRanges_S, Hp. cbn [andb negb].
    rewrite IH.
    + do 3 f_equal. lia.
    + intros x Hx. apply Hin. lia.
    + replace (p + 1 + Z.of_nat k) with (p + Z.of_nat (S k)) by lia. exact Hout.
Qed.

Lemma unchangedRangesOf_full (U : gset Z) (len : nat) :
  (forall x, x ∈ U <-> 0 <= x < Z.of_nat len) ->
  unchangedRangesOf U len
  = match len with O => [] | S _ => [mkRange 0 (Z.of_nat len)] end.
Proof.
  intros HU. unfold unchangedRangesOf. destruct len as [|m].
  - assert (H0 : has U 0 = false) by (apply has_false; rewrite HU; lia).
    simpl. now rewrite H0.
  - assert (H0 : has U 0 = true) by (apply has_true; rewrite HU; lia).
    replace (S m + 1)%nat with (S (S m)) by lia.
    rewrite scanRanges_S, H0. cbn [andb negb].
    rewrite scanRanges_all_in.
    + simpl. do 2 f_equal. lia.
    + intros x Hx. apply HU. lia.
    + rewrite HU. lia.
Qed.

(** With every offset an anchor there is no varying range. *)
Lemma varyingRangesOf_full (U : gset Z) (len : nat) :
  (forall x, x ∈ U <-> 0 <= x < Z.of_nat len) ->
  varyingRangesOf (unchangedRangesOf U len) len = [].
Proof.
  intros HU. rewrite (unchangedRangesOf_full U len HU).
  unfold varyingRangesOf, augment. destruct len as [|m].
  - reflexivity.
  - cbn [app gapsBetween start end_]. now rewrite !Z.eqb_refl.
Qed.

(** ** Identical strings *)

Lemma length_append (a b : string) :
  String.length (a +:+ b) = (String.length a + String.length b)%nat.
Proof.
  induction a as [|c a IH]; [reflexivity |]. rewrite append_cons. simpl. now rewrite IH.
Qed.

Lemma forEach_const {A B : Type} (f : A -> result B) (xs : list A) (y : B) :
  (forall x, In x xs -> f x = Ok y) -> forEach f xs = Ok (map (fun _ => y) xs).
Proof.
  induction xs as [|x xs IH]; intros Hall; [reflexivity |].
  rewrite forEach_cons, (Hall x), bind_Ok, IH, bind_Ok; [reflexivity | |now left].
  intros x' Hin. apply Hall. now right.
Qed.

Lemma intersect_same {A : Type} (U : gset Z) (xs : list A) :
  fold_left (fun common unchanged => common ∩ unchanged) (map (fun _ => U) xs) U = U.
Proof.
  induction xs as [|x xs IH]; [reflexivity |].
  simpl. replace (U ∩ U) with U; [exact IH |].
  apply set_eq. intros z. rewrite elem_of_intersection. tauto.
Qed.

Lemma oldSide_cons {V : Type} (e : Change V) (script : list (Change V)) :
  oldSide (e :: script)
  = if added e then oldSide script else value e :: oldSide script.
Proof. unfold oldSide. simpl. now destruct (added e). Qed.

(** The cursor after a joined script is the length of its old side. *)
Lemma cursor_old_side (script : list (Change (list string))) (p : Z) :
  fold_left
    (fun cursor edit =>
       if added edit then cursor
       else cursor + Z.of_nat (String.length (value edit)))
    (map (fun m =>
            let v := join_empty (value m) in
            mkChange v (String.length v) (added m) (removed m)) script) p
  = p + Z.of_nat (String.length (join_empty (concat (oldSide script)))).
Proof.
  revert p. induction script as [|e script IH]; intros p; [simpl; lia |].
  rewrite oldSide_cons. cbn [map fold_left added value].
  destruct (added e); rewrite IH; [reflexivity |].
  cbn [concat]. rewrite join_empty_app, length_append. lia.
Qed.

Lemma oldSide_unchanged {V : Type} (script : list (Change V)) :
  Forall isUnchanged script -> oldSide script = map value script.
Proof.
  induction 1 as [|e script [Ha _] _ IH]; [reflexivity |].
  now rewrite oldSide_cons, Ha, IH.
Qed.

Section IdenticalStrings.

Variable differ : Differ.

(** What any array differ does with twice the same array: nothing is added
    or removed, and the unchanged edits hold the tokens of the array. *)
Hypothesis differ_same : forall toks : list string,
  Forall isUnchanged (differ toks toks)
  /\ concat (map value (differ toks toks)) = toks.

Lemma diffSegmented_same_unchanged (s : string) :
  Forall isUnchanged (diffSegmented differ s s).
Proof.
  unfold diffSegmented. destruct (differ_same (segmentString s)) as [Hall _].
  induction Hall as [|e script He _ IH]; simpl; constructor; auto.
Qed.

Lemma diffSegmented_same_cursor (s : string) :
  cursorAfter (diffSegmented differ s s) = Z.of_nat (String.length s).
Proof.
  unfold cursorAfter, diffSegmented.
  destruct (differ_same (segmentString s)) as [Hall Hcat].
  now rewrite cursor_old_side, oldSide_unchanged, Hcat, join_segmentString.
Qed.

(** Against itself every offset of the reference is unchanged. *)
Lemma diffSegmented_same_set (s : string) :
  exists U, unchangedSet s (diffSegmented differ s s) = Ok U
    /\ forall x, x ∈ U <-> 0 <= x < Z.of_nat (String.length s).
Proof.
  eexists. split; [apply unchangedSet_Ok, diffSegmented_same_cursor |].
  intros x. rewrite markEdits_all_unchanged by apply diffSegmented_same_unchanged.
  rewrite unchangedSet_cursor, diffSegmented_same_cursor.
  split; [intros [H|H]; [now apply not_elem_of_empty in H | exact H] | now right].
Qed.

(** Any two or more copies of one string leave no varying range, and the
    composer reads [varyingRanges[0].start] of an empty array. *)
Lemma identical_strings_TypeError (s : string) (others : list string) :
  others <> [] -> Forall (fun t => t = s) others ->
  mergeStrings differ (s :: others) = Throw TypeError.
Proof.
  intros Hne Hall. destruct others as [|t others]; [congruence |].
  change (mergeStrings differ (s :: t :: others)) with
    (let diffs := map (diffSegmented differ s) (s :: t :: others) in
     unchangedCommonOf s diffs ≫= fun unchangedCommon =>
     let unchangedRanges := unchangedRangesOf unchangedCommon (String.length s) in
     let varyingRanges := varyingRangesOf unchangedRanges (String.length s) in
     forEach (varyingPartsOf varyingRanges) diffs ≫= fun varyingLists =>
     match varyingRanges with
     | [] => Throw TypeError
     | range :: _ =>
         Ok (join_empty
               (composeLoop s unchangedRanges varyingRanges varyingLists
                  (start range =? 0) 0 0 []))
     end).
  cbv zeta.
  destruct (diffSegmented_same_set s) as (U & HU & Hmem).
  assert (Hcommon : unchangedCommonOf s (map (diffSegmented differ s) (s :: t :: others))
                    = Ok U).
  { unfold unchangedCommonOf. rewrite (forEach_const _ _ U).
    - rewrite bind_Ok. rewrite map_map. cbn [map intersectAll]. f_equal.
      change (fold_left _ _ U) with
        (fold_left (fun common unchanged : gset Z => common ∩ unchanged)
           (map (fun _ : string => U) (s :: t :: others)) U).
      apply intersect_same.
    - intros d (t' & <- & Hin)%in_map_iff.
      destruct Hin as [<-|Hin]; [exact HU |].
      rewrite List.Forall_forall in Hall. now rewrite (Hall t' Hin). }
  rewrite Hcommon, bind_Ok, (varyingRangesOf_full U _ Hmem).
  destruct (forEach_Ok (varyingPartsOf []) (map (diffSegmented differ s) (s :: t :: others)))
    as [lists ->]; [intros d _; now eexists | reflexivity].
Qed.

End IdenticalStrings.

(** The modelled differ on twice the same array. *)
Lemma lcsOps_same (toks : list string) : lcsOps toks toks = map Keep toks.
Proof.
  induction toks as [|tok toks IH]; [reflexivity |].
  simpl. now rewrite String.eqb_refl, IH.
Qed.

Lemma keep_script (tok : string) (toks : list string) :
  fold_right consOp [] (map Keep (tok :: toks)) = [unchangedEdit (tok :: toks)].
Proof.
  revert tok. induction toks as [|tok' toks IH]; intros tok; [reflexivity |].
  change (fold_right consOp [] (map Keep (tok :: tok' :: toks)))
    with (consOp (Keep tok) (fold_right consOp [] (map Keep (tok' :: toks)))).
  now rewrite IH.
Qed.

Lemma diffArrays_same (toks : list string) :
  Forall isUnchanged (diffArrays toks toks)
  /\ concat (map value (diffArrays toks toks)) = toks.
Proof.
  unfold diffArrays. rewrite lcsOps_same. destruct toks as [|tok toks].
  - split; [constructor | reflexivity].
  - rewrite keep_script. split; [repeat constructor |].
    simpl. now rewrite app_nil_r.
Qed.

(** C3: three copies of one string do not merge into that string: whatever
    the string, no range varies, and reading the first varying range at line
    197 throws a [TypeError]. *)
Theorem merge_three_copies_TypeError (s : string) :
  merge [s; s; s] = Throw TypeError.
Proof.
  apply (identical_strings_TypeError diffArrays diffArrays_same).
  - discriminate.
  - now repeat constructor.
Qed.

(** C6: a non-empty list of strings can make the merger throw something
    else than the two declared errors: two equal strings leave no varying
    range for line 197 to read, and a string with nothing in common with the
    reference leaves no entry for line 164 to read. *)
Theorem merge_throws_TypeError :
  merge ["a"; "a"] = Throw TypeError /\ merge ["a"; EmptyString] = Throw TypeError.
Proof. split; vm_compute; reflexivity. Qed.

(** ** The variant sets of the composer *)

#[local] Instance sortBefore_trans : Transitive sortBefore.
Proof.
  intros [a|] [b|] [c|]; unfold sortBefore; simpl; try congruence.
  intros Hab%Is_true_true Hbc%Is_true_true. apply Is_true_true.
  exact (transitivity (R := String.le) Hab Hbc).
Qed.

#[local] Instance sortBefore_antisym : AntiSymm (=) sortBefore.
Proof.
  intros [a|] [b|]; unfold sortBefore; simpl; try congruence.
  intros Hab Hba. f_equal. now apply String.leb_antisym.
Qed.

#[local] Instance sortBefore_total : Total sortBefore.
Proof.
  intros [a|] [b|]; unfold sortBefore; simpl; auto.
  apply String.leb_total.
Qed.

Lemma sortInsert_Permutation (v : option string) (l : list (option string)) :
  sortInsert v l ≡ₚ v :: l.
Proof.
  induction l as [|w l IH]; simpl; [reflexivity |].
  destruct (sortLe v w); [reflexivity |].
  rewrite IH. apply Permutation_swap.
Qed.

Lemma sort_Permutation (l : list (option string)) : sort l ≡ₚ l.
Proof.
  induction l as [|v l IH]; simpl; [reflexivity |].
  now rewrite sortInsert_Permutation, IH.
Qed.

Lemma Sorted_sortInsert (v : option string) (l : list (option string)) :
  Sorted sortBefore l -> Sorted sortBefore (sortInsert v l).
Proof.
  induction l as [|w l IH]; intros Hl; simpl; [repeat constructor |].
  destruct (sortLe v w) eqn:Hvw.
  - constructor; [assumption | now constructor].
  - assert (Hwv : sortBefore w v).
    { destruct (sortBefore_total v w) as [H|H]; [unfold sortBefore in H; congruence | exact H]. }
    apply Sorted_inv in Hl as [Hl Hhd]. constructor; [now apply IH |].
    destruct l as [|x l]; simpl; [now constructor |].
    apply HdRel_inv in Hhd. destruct (sortLe v x); now constructor.
Qed.

Lemma Sorted_sort (l : list (option string)) : Sorted sortBefore (sort l).
Proof.
  induction l as [|v l IH]; simpl; [constructor | now apply Sorted_sortInsert].
Qed.

(** The sorted array depends on the elements only, not on their order. *)
Lemma sort_unique (l l' : list (option string)) : l ≡ₚ l' -> sort l = sort l'.
Proof.
  intros Hperm. apply (Sorted_unique sortBefore); try apply Sorted_sort.
  now rewrite !sort_Permutation.
Qed.

Lemma setAdd_elem (variants : list (option string)) (v x : option string) :
  x ∈ setAdd variants v <-> x ∈ variants \/ x = v.
Proof.
  unfold setAdd. case_bool_decide as Hin.
  - split; [now left | intros [H| ->]; assumption].
  - rewrite elem_of_app, list_elem_of_singleton. tauto.
Qed.

Lemma setAdd_NoDup (variants : list (option string)) (v : option string) :
  NoDup variants -> NoDup (setAdd variants v).
Proof.
  intros Hnd. unfold setAdd. case_bool_decide as Hin; [assumption |].
  apply NoDup_app. repeat split; [assumption | | apply NoDup_singleton].
  intros x Hx Hx'%list_elem_of_singleton. now subst x.
Qed.

Lemma variants_fold_elem (lists : list (list string)) (i : nat)
    (acc : list (option string)) (x : option string) :
  x ∈ fold_left (fun variants list => setAdd variants (list !! i)) lists acc
  <-> x ∈ acc \/ exists list, list ∈ lists /\ list !! i = x.
Proof.
  revert acc. induction lists as [|list lists IH]; intros acc; simpl.
  - split; [now left | intros [H|(l & Hl & _)]; [assumption | now apply elem_of_nil in Hl]].
  - rewrite IH, setAdd_elem. split.
    + intros [[H| ->]|(l & Hl & Hx)]; [now left | |].
      * right. exists list. split; [apply list_elem_of_here | reflexivity].
      * right. exists l. split; [now apply list_elem_of_further | assumption].
    + intros [H|(l & Hl & Hx)]; [left; now left |].
      apply elem_of_cons in Hl as [->|Hl]; [left; now right |].
      right. now exists l.
Qed.

Lemma variants_fold_NoDup (lists : list (list string)) (i : nat)
    (acc : list (option string)) :
  NoDup acc ->
  NoDup (fold_left (fun variants list => setAdd variants (list !! i)) lists acc).
Proof.
  revert acc. induction lists as [|list lists IH]; intros acc Hnd; simpl; [assumption |].
  now apply IH, setAdd_NoDup.
Qed.

(** The variants of a bracket: what the lists hold at the index, once each. *)
Lemma variantsAt_elem (lists : list (list string)) (i : nat) (x : option string) :
  x ∈ variantsAt lists i <-> exists list, list ∈ lists /\ list !! i = x.
Proof.
  unfold variantsAt. rewrite variants_fold_elem. split; [|now right].
  intros [H|H]; [now apply elem_of_nil in H | exact H].
Qed.

Lemma variantsAt_NoDup (lists : list (list string)) (i : nat) :
  NoDup (variantsAt lists i).
Proof. apply variants_fold_NoDup, NoDup_nil_2. Qed.

Lemma variantsAt_Permutation (lists lists' : list (list string)) (i : nat) :
  lists ≡ₚ lists' -> variantsAt lists i ≡ₚ variantsAt lists' i.
Proof.
  intros Hperm. apply NoDup_Permutation; try apply variantsAt_NoDup.
  intros x. rewrite !variantsAt_elem.
  split; intros (l & Hl & Hx); exists l; (split; [|assumption]).
  - now rewrite <- Hperm.
  - now rewrite Hperm.
Qed.

(** C9: the variants of one bracket are distinct and in the order of
    [sort()], whatever the order of the lists they come from; the two
    summaries of ["X is red"], met twice, and ["X is blue"] give the two
    variants [blue] and [red]. *)
Theorem variants_deduplicated_sorted :
  merge ["X is red"; "X is blue"; "X is red"] = Ok "X is {blue, red}"
  /\ merge ["X is red"; "X is red"; "X is blue"] = Ok "X is {blue, red}"
  /\ (forall (lists : list (list string)) (i : nat),
        NoDup (sort (variantsAt lists i))
        /\ Sorted sortBefore (sort (variantsAt lists i))
        /\ forall v, v ∈ sort (variantsAt lists i)
                     <-> exists list, list ∈ lists /\ list !! i = v)
  /\ (forall (lists lists' : list (list string)) (i : nat),
        lists ≡ₚ lists' -> bracket lists' i = bracket lists i).
Proof.
  split; [vm_compute; reflexivity |].
  split; [vm_compute; reflexivity |].
  split.
  - intros lists i. split; [|split].
    + rewrite sort_Permutation. apply variantsAt_NoDup.
    + apply Sorted_sort.
    + intros v. rewrite sort_Permutation. apply variantsAt_elem.
  - intros lists lists' i Hperm. unfold bracket.
    now rewrite (sort_unique _ _ (variantsAt_Permutation _ _ i Hperm)).
Qed.

(** The bracket of two lists does not depend on which list comes first. *)
Lemma variants_order_witness :
  [["red"]; ["blue"]] ≡ₚ [["blue"]; ["red"]]
  /\ bracket [["blue"]; ["red"]] 0 = bracket [["red"]; ["blue"]] 0.
Proof.
  split; [apply Permutation_swap |].
  apply (proj2 (proj2 (proj2 variants_deduplicated_sorted))).
  apply Permutation_swap.
Defined.

(** ** The two passes over an edit script agree *)

Lemma length_chars_of (s : string) : length (chars_of s) = String.length s.
Proof. induction s as [|c s IH]; simpl; [reflexivity | now rewrite IH]. Qed.

Lemma keptChars_snd (v : list ascii) (r : bool) (p : Z) :
  snd (keptChars v r p) = p + Z.of_nat (length v).
Proof.
  revert p. induction v as [|c v IH]; intros p; simpl; [lia |].
  specialize (IH (p + 1)). destruct (keptChars v r (p + 1)) as [chars p'].
  simpl in *. lia.
Qed.

(** The entries of a non-added edit: one per offset it walks over, unless it
    is a removal. *)
Lemma keptChars_ptrs (v : list ascii) (r : bool) (p x : Z) :
  (exists c, In c (fst (keptChars v r p)) /\ countAdjacent c = false /\ ptr c = x)
  <-> r = false /\ p <= x < p + Z.of_nat (length v).
Proof.
  revert p. induction v as [|c v IH]; intros p; simpl.
  - split; [intros (c & [] & _) | intros [_ H]; lia].
  - specialize (IH (p + 1)). destruct (keptChars v r (p + 1)) as [chars p'].
    simpl in IH. destruct r; simpl.
    + rewrite IH. split; intros [H _]; discriminate.
    + split.
      * intros (c' & [<-|Hin] & Hadj & Hptr); [simpl in Hptr; split; [reflexivity | lia] |].
        destruct (proj1 IH) as [_ Hx]; [now exists c' |]. split; [reflexivity | lia].
      * intros [_ Hx]. destruct (decide (x = p)) as [->|Hne].
        -- exists (mkChar p c false). repeat split. now left.
        -- destruct (proj2 IH) as (c' & Hin & Hadj & Hptr); [split; [reflexivity | lia] |].
           exists c'. repeat split; auto.
Qed.

Lemma keptChars_adjacent (v : list ascii) (r : bool) (p : Z) (c : CharEntry) :
  In c (fst (keptChars v r p)) ->
  countAdjacent c = false /\ p <= ptr c < p + Z.of_nat (length v).
Proof.
  revert p. induction v as [|a v IH]; intros p; simpl; [intros [] |].
  specialize (IH (p + 1)). destruct (keptChars v r (p + 1)) as [chars p'].
  simpl in IH. destruct r; simpl.
  - intros Hin. destruct (IH Hin). split; [assumption | lia].
  - intros [<-|Hin]; [simpl; split; [reflexivity | lia] |].
    destruct (IH Hin). split; [assumption | lia].
Qed.

Lemma addedChars_spec (v : string) (p : Z) (c : CharEntry) :
  In c (addedChars v p) -> countAdjacent c = true /\ ptr c = p.
Proof. unfold addedChars. intros (a & <- & _)%in_map_iff. now split. Qed.

(** Every entry carries an offset between the start and the end of the walk. *)
Lemma charsOf_ptr_bounds (diff : list (Change string)) (U : gset Z) (p : Z)
    (c : CharEntry) :
  In c (charsOf diff p) -> p <= ptr c <= snd (markEdits diff U p).
Proof.
  revert U p. induction diff as [|edit diff IH]; intros U p; simpl; [intros [] |].
  destruct (added edit); simpl.
  - intros [Hin|Hin]%in_app_iff.
    + apply addedChars_spec in Hin as [_ ->].
      pose proof (markEdits_ptr_le diff U p). lia.
    + now apply IH.
  - pose proof (keptChars_snd (chars_of (value edit)) (removed edit) p) as Hk.
    pose proof (markChars_ptr (String.length (value edit)) (removed edit) U p) as Hm.
    destruct (keptChars _ _ p) as [chars pk] eqn:Hkept.
    destruct (markChars _ _ U p) as [U' pm].
    simpl in Hk, Hm. rewrite length_chars_of in Hk.
    assert (pk = pm) as -> by lia.
    intros [Hin|Hin]%in_app_iff.
    + pose proof (keptChars_adjacent (chars_of (value edit)) (removed edit) p c) as Hc.
      rewrite Hkept, length_chars_of in Hc. destruct (Hc Hin) as [_ Hb].
      pose proof (markEdits_ptr_le diff U' pm). lia.
    + specialize (IH U' pm Hin). lia.
Qed.

(** The offsets that the anchor finder records are the offsets of the
    entries that the variant extractor does not count as adjacent. *)
Lemma markEdits_elem_chars (diff : list (Change string)) (U : gset Z) (p x : Z) :
  x ∈ fst (markEdits diff U p) <->
  x ∈ U \/ exists c, In c (charsOf diff p) /\ countAdjacent c = false /\ ptr c = x.
Proof.
  revert U p. induction diff as [|edit diff IH]; intros U p; simpl.
  - split; [now left | intros [H|(c & [] & _)]; exact H].
  - destruct (added edit); simpl.
    + rewrite IH. split; (intros [H|(c & Hin & Hadj & Hptr)]; [now left | right]).
      * exists c. rewrite in_app_iff. auto.
      * apply in_app_iff in Hin as [Hin|Hin]; [|now exists c].
        apply addedChars_spec in Hin as [Hadj' _]. congruence.
    + pose proof (keptChars_snd (chars_of (value edit)) (removed edit) p) as Hk.
      pose proof (keptChars_ptrs (chars_of (value edit)) (removed edit) p x) as Hkx.
      pose proof (markChars_ptr (String.length (value edit)) (removed edit) U p) as Hm.
      pose proof (markChars_elem (String.length (value edit)) (removed edit) U p x) as Hmx.
      destruct (keptChars _ _ p) as [chars pk].
      destruct (markChars _ _ U p) as [U' pm].
      simpl in Hk, Hm, Hkx, Hmx. rewrite length_chars_of in Hk, Hkx.
      assert (pk = pm) as -> by lia.
      rewrite IH, Hmx, <- Hkx. split.
      * intros [[H|(c & Hin & Hc)]|(c & Hin & Hc)]; [now left | right; exists c ..];
          rewrite in_app_iff; auto.
      * intros [H|(c & Hin & Hc)]; [left; now left |].
        apply in_app_iff in Hin as [Hin|Hin]; [left; right | right]; now exists c.
Qed.

(** A script without entries records no offset. *)
Lemma markEdits_no_chars (diff : list (Change string)) (x : Z) :
  charsOf diff 0 = [] -> x ∉ fst (markEdits diff ∅ 0).
Proof.
  intros Hnil. rewrite markEdits_elem_chars, Hnil.
  intros [H|(c & [] & _)]. now apply not_elem_of_empty in H.
Qed.

(** ** The common offsets *)

Lemma intersect_fold_elem (sets : list (gset Z)) (init : gset Z) (x : Z) :
  x ∈ fold_left (fun common unchanged => common ∩ unchanged) sets init <->
  x ∈ init /\ forall U, In U sets -> x ∈ U.
Proof.
  revert init. induction sets as [|S sets IH]; intros init; simpl.
  - split; [intros H; split; [exact H | intros U []] | now intros [H _]].
  - rewrite IH, elem_of_intersection. split.
    + intros [[Hi HS] Hall]. split; [exact Hi |]. intros U [<-|HU]; auto.
    + intros [Hi Hall]. repeat split; auto.
Qed.

(** An anchor offset is unchanged in the script of every string. *)
Lemma unchangedCommonOf_elem (reference : string)
    (diffs : list (list (Change string))) (common : gset Z) :
  unchangedCommonOf reference diffs = Ok common ->
  forall diff, In diff diffs ->
    cursorAfter diff = Z.of_nat (String.length reference)
    /\ forall x, x ∈ common -> x ∈ fst (markEdits diff ∅ 0).
Proof.
  unfold unchangedCommonOf.
  destruct (forEach (unchangedSet reference) diffs) as [sets|e] eqn:Hsets; [|discriminate].
  rewrite bind_Ok. intros Hcommon diff Hin.
  destruct (forEach_Ok_In _ _ _ _ Hsets Hin) as (U & HU & Hdiff).
  assert (Hcur : cursorAfter diff = Z.of_nat (String.length reference)).
  { destruct (Z.eq_dec (cursorAfter diff) (Z.of_nat (String.length reference)))
      as [Heq|Hne]; [exact Heq |].
    assert (unchangedSet reference diff = Throw DiffCoverageMismatch)
      by now apply unchangedSet_Throw. congruence. }
  split; [exact Hcur |].
  rewrite (unchangedSet_Ok _ _ Hcur) in Hdiff. injection Hdiff as HeqU.
  destruct sets as [|S sets]; [destruct HU |].
  injection Hcommon as <-. intros x [HS Hall]%intersect_fold_elem.
  rewrite HeqU. destruct HU as [<-|HU]; [|now apply Hall].
  now apply elem_of_intersection in HS as [HS _].
Qed.

(** ** The range partitioner on a reference without anchors *)

Lemma scanRanges_none (U : gset Z) (n : nat) (p rangeStart : Z) (acc : list Range) :
  (forall x, x ∉ U) -> scanRanges U n p false rangeStart acc = acc.
Proof.
  intros Hnone. revert p. induction n as [|n IH]; intros p; [reflexivity |].
  rewrite scanRanges_S. assert (has U p = false) as -> by apply has_false, Hnone.
  simpl. apply IH.
Qed.

Lemma varyingRangesOf_none (U : gset Z) (len : nat) :
  (forall x, x ∉ U) ->
  varyingRangesOf (unchangedRangesOf U len) len
  = match len with O => [] | S _ => [mkRange 0 (Z.of_nat len)] end.
Proof.
  intros Hnone. unfold unchangedRangesOf. rewrite scanRanges_none by assumption.
  unfold varyingRangesOf, augment. destruct len as [|m]; [reflexivity |].
  cbn [app gapsBetween start end_].
  destruct (Z.eqb_spec 0 (Z.of_nat (S m))) as [H0|_]; [lia | reflexivity].
Qed.

(** ** The variant extractor on a single range from offset 0 *)

Lemma skipBefore_here (rangeStart : Z) (c : CharEntry) (rest : list CharEntry) :
  rangeStart <= ptr c -> skipBefore rangeStart (c :: rest) = Ok (c :: rest, false).
Proof.
  intros Hle. simpl. destruct (Z.ltb_spec (ptr c) rangeStart); [lia | reflexivity].
Qed.

Lemma extractParts_whole (rangeEnd : Z) (chars : list CharEntry) (parts : list string) :
  (forall c, In c chars -> 0 <= ptr c <= rangeEnd) ->
  extractParts [mkRange 0 rangeEnd] chars [] = Ok parts -> length parts = 1%nat.
Proof.
  intros Hb. destruct chars as [|c chars]; [discriminate |].
  destruct (Hb c) as [H0 Hend]; [now left |].
  cbn [extractParts end_ start].
  destruct (Z.gtb_spec (ptr c) rangeEnd) as [Hgt|_]; [lia |].
  rewrite skipBefore_here, bind_Ok by lia.
  destruct (takeWithin_Ok rangeEnd c chars []) as (rest2 & done2 & vp & -> & _).
  rewrite bind_Ok. destruct done2; now intros [= <-].
Qed.

(** ** The composer visits every varying range *)

Section ComposerFacts.

Variable reference : string.
Variable unchangedRanges varyingRanges : list Range.
Variable varyingLists : list (list string).

#[local] Abbreviation loop :=
  (composeLoop reference unchangedRanges varyingRanges varyingLists).

Lemma composeLoop_varying (varyingIdx unchangedIdx : nat) (combined : list string) :
  (varyingIdx < length varyingRanges)%nat ->
  loop true varyingIdx unchangedIdx combined
  = loop false (S varyingIdx) unchangedIdx
      (combined ++ [bracket varyingLists varyingIdx]).
Proof.
  intros Hlt. rewrite composeLoop_equation_1.
  destruct (decide (varyingIdx < length varyingRanges)%nat); [reflexivity | contradiction].
Qed.

Lemma composeLoop_varying_end (varyingIdx unchangedIdx : nat) (combined : list string) :
  ~ (varyingIdx < length varyingRanges)%nat ->
  loop true varyingIdx unchangedIdx combined = combined.
Proof.
  intros Hge. rewrite composeLoop_equation_1.
  destruct (decide (varyingIdx < length varyingRanges)%nat); [contradiction | reflexivity].
Qed.

Lemma composeLoop_looked (varyingIdx unchangedIdx : nat)
    (looked : {b : option Range | unchangedRanges !! unchangedIdx = b})
    (combined : list string) :
  composeLoop_unfold_clause_2 reference unchangedRanges varyingRanges varyingLists
    varyingIdx unchangedIdx looked combined
  = match proj1_sig looked with
    | Some range =>
        loop true varyingIdx (S unchangedIdx)
          (combined ++ [slice reference (start range) (end_ range)])
    | None => combined
    end.
Proof. destruct looked as [[range|] Hlooked]; reflexivity. Qed.

Lemma composeLoop_unchanged (varyingIdx unchangedIdx : nat) (combined : list string) :
  loop false varyingIdx unchangedIdx combined
  = match unchangedRanges !! unchangedIdx with
    | Some range =>
        loop true varyingIdx (S unchangedIdx)
          (combined ++ [slice reference (start range) (end_ range)])
    | None => combined
    end.
Proof. now rewrite composeLoop_equation_2, composeLoop_looked. Qed.

Lemma composeLoop_keeps (piece : string) (n : nat) :
  forall (onVarying : bool) (varyingIdx unchangedIdx : nat) (combined : list string),
    ((length varyingRanges - varyingIdx) + (length unchangedRanges - unchangedIdx) <= n)%nat ->
    In piece combined ->
    In piece (loop onVarying varyingIdx unchangedIdx combined).
Proof.
  induction n as [|n IH]; intros [|] vi ui combined Hn Hin.
  - rewrite composeLoop_varying_end by lia. exact Hin.
  - rewrite composeLoop_unchanged.
    destruct (unchangedRanges !! ui) as [range|] eqn:Hu; [|exact Hin].
    apply lookup_lt_Some in Hu. lia.
  - destruct (decide (vi < length varyingRanges)%nat) as [Hlt|Hge].
    + rewrite composeLoop_varying by exact Hlt.
      apply IH; [lia | apply in_or_app; now left].
    + rewrite composeLoop_varying_end by exact Hge. exact Hin.
  - rewrite composeLoop_unchanged.
    destruct (unchangedRanges !! ui) as [range|] eqn:Hu; [|exact Hin].
    apply lookup_lt_Some in Hu.
    apply IH; [lia | apply in_or_app; now left].
Qed.

Lemma composeLoop_brackets (n : nat) :
  forall (onVarying : bool) (varyingIdx unchangedIdx : nat) (combined : list string),
    ((length varyingRanges - varyingIdx) + (length unchangedRanges - unchangedIdx) <= n)%nat ->
    enoughTurns unchangedRanges varyingRanges onVarying varyingIdx unchangedIdx ->
    forall i, (varyingIdx <= i < length varyingRanges)%nat ->
      In (bracket varyingLists i) (loop onVarying varyingIdx unchangedIdx combined).
Proof.
  induction n as [|n IH]; intros [|] vi ui combined Hn Hturns i Hi;
    unfold enoughTurns in Hturns.
  - lia.
  - lia.
  - rewrite composeLoop_varying by lia.
    destruct (decide (i = vi)) as [->|Hne].
    + eapply composeLoop_keeps; [reflexivity |]. apply in_or_app. right. now left.
    + apply IH; [lia | unfold enoughTurns; lia | lia].
  - rewrite composeLoop_unchanged.
    destruct (unchangedRanges !! ui) as [range|] eqn:Hu.
    + apply lookup_lt_Some in Hu. apply IH; [lia | unfold enoughTurns; lia | lia].
    + apply lookup_ge_None in Hu. lia.
Qed.

End ComposerFacts.

Lemma gapsBetween_length (augmented : list Range) :
  (length (gapsBetween augmented) <= length augmented - 1)%nat.
Proof.
  induction augmented as [|this rest IH]; simpl; [lia |].
  destruct rest as [|next rest]; simpl in *; [lia |].
  destruct (negb (end_ this =? start next)); simpl; lia.
Qed.

Lemma gapsBetween_cons (this next : Range) (rest : list Range) :
  gapsBetween (this :: next :: rest) =
  if negb (end_ this =? start next)
  then mkRange (end_ this) (start next) :: gapsBetween (next :: rest)
  else gapsBetween (next :: rest).
Proof. reflexivity. Qed.

(** The composer starts on the kind of range that the reference starts
    with, which leaves it enough turns for all the varying ranges. *)
Lemma enoughTurns_start (unchangedRanges : list Range) (len : nat)
    (first : Range) (others : list Range) :
  varyingRangesOf unchangedRanges len = first :: others ->
  enoughTurns unchangedRanges (first :: others) (start first =? 0) 0 0.
Proof.
  intros Hv. unfold enoughTurns.
  assert (Hlen : (length (first :: others) <= length unchangedRanges + 1)%nat).
  { rewrite <- Hv. unfold varyingRangesOf.
    pose proof (gapsBetween_length (augment unchangedRanges len)) as Hlen.
    replace (length (augment unchangedRanges len))
      with (length unchangedRanges + 2)%nat in Hlen; [lia |].
    unfold augment. rewrite !length_app. simpl. lia. }
  destruct (Z.eqb_spec (start first) 0) as [_|Hne]; [lia |].
  unfold varyingRangesOf, augment in Hv.
  destruct (unchangedRanges ++ [mkRange (Z.of_nat len) (Z.of_nat len + 1)])
    as [|next tl] eqn:Htl.
  { now apply app_eq_nil in Htl as [_ ?]. }
  assert (Hlentl : length (next :: tl) = (length unchangedRanges + 1)%nat).
  { rewrite <- Htl, length_app. reflexivity. }
  cbn [app] in Hv. rewrite gapsBetween_cons in Hv. cbn [end_] in Hv.
  destruct (negb (0 =? start next)).
  - injection Hv as <- _. now simpl in Hne.
  - pose proof (gapsBetween_length (next :: tl)) as Hg.
    rewrite Hv, Hlentl in Hg. lia.
Qed.

(** ** [undefined] among the variants *)

Lemma sortInsert_None (defined : list string) :
  sortInsert None (map Some defined) = map Some defined ++ [None].
Proof. induction defined as [|s defined IH]; simpl; [reflexivity | now rewrite IH]. Qed.

Lemma sortInsert_Some (s : string) (defined : list string) :
  exists defined', sortInsert (Some s) (map Some defined) = map Some defined'.
Proof.
  induction defined as [|t defined [defined' IH]]; simpl.
  - now exists [s].
  - destruct (String.leb s t).
    + now exists (s :: t :: defined).
    + exists (t :: defined'). simpl. now rewrite IH.
Qed.

Lemma sortInsert_Some_last (s : string) (defined : list string) :
  exists defined',
    sortInsert (Some s) (map Some defined ++ [None]) = map Some defined' ++ [None].
Proof.
  induction defined as [|t defined [defined' IH]]; simpl.
  - now exists [s].
  - destruct (String.leb s t).
    + now exists (s :: t :: defined).
    + exists (t :: defined'). simpl. now rewrite IH.
Qed.

Lemma sort_defined (l : list (option string)) :
  ~ In None l -> exists defined, sort l = map Some defined.
Proof.
  induction l as [|v l IH]; intros Hnone; simpl; [now exists [] |].
  destruct IH as [defined ->]; [intros H; apply Hnone; now right |].
  destruct v as [s|]; [apply sortInsert_Some |].
  destruct Hnone. now left.
Qed.

(** [sort()] leaves the one [undefined] of a [Set] after the strings. *)
Lemma sort_None_last (l : list (option string)) :
  In None l -> NoDup l -> exists defined, sort l = map Some defined ++ [None].
Proof.
  induction l as [|v l IH]; intros Hin Hnd; [destruct Hin |].
  apply NoDup_cons in Hnd as [Hv Hnd]. rewrite list_elem_of_In in Hv. simpl.
  destruct v as [s|].
  - destruct Hin as [Heq|Hin]; [discriminate |].
    destruct (IH Hin Hnd) as [defined ->]. apply sortInsert_Some_last.
  - destruct (sort_defined l Hv) as [defined ->].
    exists defined. apply sortInsert_None.
Qed.

(** [join] writes nothing for [undefined], which leaves an empty entry. *)
Lemma join_None_last (sep : string) (defined : list string) :
  join sep (map Some defined ++ [None]) = String.concat sep (defined ++ [EmptyString]).
Proof.
  unfold join. rewrite map_app, map_map. simpl. now rewrite map_id.
Qed.

(** ** A variant list shorter than the varying ranges *)

Lemma mergeStrings_unfold (differ : Differ) (first second : string)
    (others : list string) :
  mergeStrings differ (first :: second :: others) =
  (let len := String.length first in
   let diffs := map (diffSegmented differ first) (first :: second :: others) in
   unchangedCommonOf first diffs ≫= fun unchangedCommon =>
   let unchangedRanges := unchangedRangesOf unchangedCommon len in
   let varyingRanges := varyingRangesOf unchangedRanges len in
   forEach (varyingPartsOf varyingRanges) diffs ≫= fun varyingLists =>
   match varyingRanges with
   | [] => Throw TypeError
   | range :: _ =>
       Ok (join_empty
             (composeLoop first unchangedRanges varyingRanges varyingLists
                (start range =? 0) 0 0 []))
   end).
Proof. reflexivity. Qed.

(** When one script leaves a variant list short, every script has entries:
    a script without entries leaves no anchor, hence a single varying range
    from offset 0, of which no script with entries falls short. *)
Lemma short_list_chars (reference : string) (diffs : list (list (Change string)))
    (unchangedCommon : gset Z) (diff : list (Change string)) (parts : list string) :
  let len := String.length reference in
  let varyingRanges := varyingRangesOf (unchangedRangesOf unchangedCommon len) len in
  unchangedCommonOf reference diffs = Ok unchangedCommon ->
  In diff diffs ->
  varyingPartsOf varyingRanges diff = Ok parts ->
  (length parts < length varyingRanges)%nat ->
  forall other, In other diffs -> charsOf other 0 <> [].
Proof.
  intros len varyingRanges Hcommon Hin Hparts Hshort other Hother Hnil.
  destruct (unchangedCommonOf_elem _ _ _ Hcommon other Hother) as [_ Hsub].
  destruct (unchangedCommonOf_elem _ _ _ Hcommon diff Hin) as [Hcur _].
  assert (Hnone : forall x, x ∉ unchangedCommon).
  { intros x Hx. exact (markEdits_no_chars other x Hnil (Hsub x Hx)). }
  subst varyingRanges. rewrite (varyingRangesOf_none _ len Hnone) in Hparts, Hshort.
  destruct len as [|m] eqn:Hlen; [simpl in Hshort; lia |].
  apply extractParts_whole in Hparts; [simpl in Hshort; lia |].
  intros c Hc. apply (charsOf_ptr_bounds diff ∅) in Hc.
  rewrite unchangedSet_cursor, Hcur in Hc. subst len. rewrite Hlen in Hc. exact Hc.
Qed.

(** C10: when the variant extractor leaves the list of one string shorter
    than the varying ranges, the merge still returns: for every index that
    the list misses, [undefined] is one of the variants, the bracket of that
    index is part of the result, and it shows the strings of the other lists
    in order, followed by an empty entry. *)
Theorem short_variant_list_renders_empty (differ : Differ) (first second : string)
    (others : list string) (unchangedCommon : gset Z) (k : nat)
    (diff : list (Change string)) (parts : list string) :
  let strings := first :: second :: others in
  let len := String.length first in
  let diffs := map (diffSegmented differ first) strings in
  let unchangedRanges := unchangedRangesOf unchangedCommon len in
  let varyingRanges := varyingRangesOf unchangedRanges len in
  unchangedCommonOf first diffs = Ok unchangedCommon ->
  diffs !! k = Some diff ->
  varyingPartsOf varyingRanges diff = Ok parts ->
  (length parts < length varyingRanges)%nat ->
  exists (varyingLists : list (list string)) (combined : list string),
    forEach (varyingPartsOf varyingRanges) diffs = Ok varyingLists
    /\ varyingLists !! k = Some parts
    /\ mergeStrings differ strings = Ok (join_empty combined)
    /\ forall i, (length parts <= i < length varyingRanges)%nat ->
         In None (variantsAt varyingLists i)
         /\ In (bracket varyingLists i) combined
         /\ exists defined : list string,
              (forall s, In s defined <->
                         exists list, In list varyingLists /\ list !! i = Some s)
              /\ bracket varyingLists i
                 = "{" +:+ String.concat ", " (defined ++ [EmptyString]) +:+ "}".
Proof.
  cbv zeta.
  remember (map (diffSegmented differ first) (first :: second :: others))
    as diffs eqn:Hdiffs.
  remember (unchangedRangesOf unchangedCommon (String.length first))
    as unchangedRanges eqn:Hu.
  remember (varyingRangesOf unchangedRanges (String.length first))
    as varyingRanges eqn:Hv.
  intros Hcommon Hk Hparts Hshort.
  assert (Hin : In diff diffs).
  { apply list_elem_of_In. eapply list_elem_of_lookup_2. exact Hk. }
  assert (Hchars : forall other, In other diffs -> charsOf other 0 <> []).
  { apply (short_list_chars first diffs unchangedCommon diff parts Hcommon Hin);
      subst; assumption. }
  destruct (forEach_Ok (varyingPartsOf varyingRanges) diffs) as [varyingLists Hlists].
  { intros other Hother. apply extractParts_Ok. now apply Hchars. }
  assert (Hkparts : varyingLists !! k = Some parts).
  { pose proof (forEach_Ok_inv _ _ _ Hlists) as Hall.
    destruct (Forall2_lookup_l _ _ _ _ _ Hall Hk) as (parts' & Hk' & Heq).
    rewrite Hparts in Heq. now injection Heq as <-. }
  destruct varyingRanges as [|range ranges]; [simpl in Hshort; lia |].
  exists varyingLists,
    (composeLoop first unchangedRanges (range :: ranges) varyingLists
       (start range =? 0) 0 0 []).
  split; [exact Hlists |]. split; [exact Hkparts |]. split.
  { rewrite mergeStrings_unfold. cbv zeta.
    rewrite <- Hdiffs, Hcommon, bind_Ok, <- Hu, <- Hv, Hlists, bind_Ok. reflexivity. }
  intros i Hi.
  assert (Hnone : In None (variantsAt varyingLists i)).
  { apply list_elem_of_In, variantsAt_elem. exists parts. split.
    - eapply list_elem_of_lookup_2. exact Hkparts.
    - apply lookup_ge_None_2. lia. }
  split; [exact Hnone |]. split.
  - eapply composeLoop_brackets; [reflexivity | | lia].
    eapply enoughTurns_start. symmetry. exact Hv.
  - destruct (sort_None_last _ Hnone (variantsAt_NoDup varyingLists i))
      as [defined Hsorted].
    exists defined. split.
    + intros s.
      assert (Hs : In s defined <-> Some s ∈ variantsAt varyingLists i).
      { rewrite <- (sort_Permutation (variantsAt varyingLists i)), Hsorted.
        rewrite elem_of_app, list_elem_of_singleton, list_elem_of_In, in_map_iff.
        split.
        - intros Hs. left. now exists s.
        - intros [(s' & [= ->] & Hs)|Hs]; [exact Hs | discriminate]. }
      rewrite Hs, variantsAt_elem.
      split; intros (list & Hl & Hli); exists list; (split; [|exact Hli]);
        now apply list_elem_of_In.
    + unfold bracket. now rewrite Hsorted, join_None_last.
Qed.

(** The merge of ["a b"] and ["c "]: the second string has nothing for the
    range after the blank, and the bracket of that range ends with an empty
    entry. *)
Lemma short_variant_list_witness :
  (unchangedCommonOf "a b" (map (diffSegmented diffArrays "a b") ["a b"; "c "])
     = Ok ({[1%Z]} : gset Z)
   /\ map (diffSegmented diffArrays "a b") ["a b"; "c "] !! 1%nat
      = Some (diffSegmented diffArrays "a b" "c ")
   /\ varyingPartsOf (varyingRangesOf (unchangedRangesOf ({[1%Z]} : gset Z) 3) 3)
        (diffSegmented diffArrays "a b" "c ") = Ok ["c"]
   /\ (length ["c"] < length (varyingRangesOf (unchangedRangesOf ({[1%Z]} : gset Z) 3) 3))%nat)
  /\ exists combined,
       merge ["a b"; "c "] = Ok (join_empty combined) /\ In "{b, }" combined.
Proof.
  assert (H1 : unchangedCommonOf "a b"
                 (map (diffSegmented diffArrays "a b") ["a b"; "c "]) = Ok ({[1%Z]} : gset Z))
    by (vm_compute; reflexivity).
  assert (H2 : map (diffSegmented diffArrays "a b") ["a b"; "c "] !! 1%nat
               = Some (diffSegmented diffArrays "a b" "c ")) by reflexivity.
  assert (H3 : varyingPartsOf (varyingRangesOf (unchangedRangesOf ({[1%Z]} : gset Z) 3) 3)
                 (diffSegmented diffArrays "a b" "c ") = Ok ["c"])
    by (vm_compute; reflexivity).
  assert (H4 : (length ["c"]
                < length (varyingRangesOf (unchangedRangesOf ({[1%Z]} : gset Z) 3) 3))%nat)
    by (vm_compute; lia).
  split; [repeat split; assumption |].
  destruct (short_variant_list_renders_empty diffArrays "a b" "c " [] ({[1%Z]} : gset Z) 1
              (diffSegmented diffArrays "a b" "c ") ["c"] H1 H2 H3 H4)
    as (lists & combined & Hlists & _ & Hmerge & Hall).
  exists combined. split; [exact Hmerge |].
  destruct (Hall 1%nat) as (_ & Hin & _); [vm_compute; lia |].
  assert (Heq : lists = [["a"; "b"]; ["c"]]) by (vm_compute in Hlists; congruence).
  rewrite Heq in Hin. exact Hin.
Defined.

(** ** When the merger throws a [TypeError] *)

(** A merge of two or more strings throws a [TypeError] exactly when the
    scripts cover the reference and either no range varies (line 197) or a
    script has no entry at all (line 164). *)
Lemma mergeStrings_TypeError_iff (differ : Differ) (first second : string)
    (others : list string) :
  mergeStrings differ (first :: second :: others) = Throw TypeError <->
  exists unchangedCommon,
    unchangedCommonOf first
      (map (diffSegmented differ first) (first :: second :: others))
    = Ok unchangedCommon
    /\ (varyingRangesOf
          (unchangedRangesOf unchangedCommon (String.length first))
          (String.length first) = []
        \/ exists diff,
             In diff (map (diffSegmented differ first) (first :: second :: others))
             /\ charsOf diff 0 = []).
Proof.
  rewrite mergeStrings_unfold. cbv zeta.
  remember (map (diffSegmented differ first) (first :: second :: others))
    as diffs eqn:Hdiffs.
  destruct (unchangedCommonOf first diffs) as [common|e] eqn:Hcommon.
  - rewrite bind_Ok.
    remember (varyingRangesOf (unchangedRangesOf common (String.length first))
                (String.length first)) as varyingRanges eqn:Hv.
    split.
    + intros Hthrow. exists common. split; [reflexivity |].
      destruct (forEach (varyingPartsOf varyingRanges) diffs) as [lists|e] eqn:Hlists.
      * rewrite bind_Ok in Hthrow. destruct varyingRanges; [now left | discriminate].
      * right. apply forEach_Throw in Hlists as (diff & Hin & Hd).
        apply extractParts_Throw in Hd as (_ & Hnil & _). now exists diff.
    + intros (common' & [= <-] & Hcases).
      destruct varyingRanges as [|range ranges].
      * destruct (forEach_Ok (varyingPartsOf []) diffs) as [lists ->];
          [intros d _; now eexists | reflexivity].
      * destruct Hcases as [Hnil|(diff & Hin & Hnil)]; [congruence |].
        destruct (forEach (varyingPartsOf (range :: ranges)) diffs)
          as [lists|e] eqn:Hlists.
        -- destruct (forEach_Ok_In _ _ _ _ Hlists Hin) as (parts & _ & Hparts).
           unfold varyingPartsOf in Hparts. rewrite Hnil in Hparts. discriminate.
        -- rewrite bind_Throw. f_equal.
           apply forEach_Throw in Hlists as (d & _ & Hd).
           now apply extractParts_Throw in Hd as [-> _].
  - rewrite bind_Throw. split.
    + intros [= ->].
      apply unchangedCommonOf_Throw in Hcommon as [[? _]|[_ Hnil]]; [discriminate |].
      rewrite Hnil in Hdiffs. discriminate.
    + intros (common & [=] & _).
Qed.

(** ** The modelled differ keeps both arrays *)

Lemma lcsOps_nil_l (ys : list string) : lcsOps [] ys = map Ins ys.
Proof. now destruct ys. Qed.

Lemma lcsOps_nil_r (xs : list string) : lcsOps xs [] = map Del xs.
Proof. now destruct xs. Qed.

Lemma lcsOps_cons (x : string) (xs : list string) (y : string) (ys : list string) :
  lcsOps (x :: xs) (y :: ys) =
  if String.eqb x y then Keep x :: lcsOps xs ys
  else if (lcsLength (x :: xs) ys <=? lcsLength xs (y :: ys))%nat
       then Del x :: lcsOps xs (y :: ys)
       else Ins y :: lcsOps (x :: xs) ys.
Proof. reflexivity. Qed.

Lemma lcsOps_sides (xs ys : list string) :
  flat_map opOld (lcsOps xs ys) = xs /\ flat_map opNew (lcsOps xs ys) = ys.
Proof.
  revert ys. induction xs as [|x xs IHx]; intros ys.
  - rewrite lcsOps_nil_l. split; induction ys as [|y ys IHy]; simpl; congruence.
  - induction ys as [|y ys IHy].
    + rewrite lcsOps_nil_r. clear IHx.
      split; induction xs as [|x' xs IH]; simpl in *; congruence.
    + rewrite lcsOps_cons. destruct (String.eqb_spec x y) as [->|Hne].
      * destruct (IHx ys) as [Ho Hn]. cbn [flat_map opOld opNew app]. now rewrite Ho, Hn.
      * destruct (lcsLength (x :: xs) ys <=? lcsLength xs (y :: ys))%nat.
        -- destruct (IHx (y :: ys)) as [Ho Hn]. cbn [flat_map opOld opNew app]. now rewrite Ho, Hn.
        -- destruct IHy as [Ho Hn]. cbn [flat_map opOld opNew app]. now rewrite Ho, Hn.
Qed.

Lemma consOp_sides (op : Op) (script : list (Change (list string))) :
  exclusive script ->
  exclusive (consOp op script)
  /\ concat (oldSide (consOp op script)) = opOld op ++ concat (oldSide script)
  /\ concat (newSide (consOp op script)) = opNew op ++ concat (newSide script).
Proof.
  unfold exclusive, oldSide, newSide. intros Hex.
  destruct op as [tok|tok|tok]; destruct script as [|[v c a r] rest];
    try (simpl; repeat split; repeat constructor; fail);
    apply Forall_cons in Hex as [Hx Hex]; simpl in Hx;
    destruct a, r; try discriminate; simpl;
    try (repeat split; repeat constructor; assumption).
  destruct rest as [|[v' c' a' r'] rest]; [simpl; repeat split; repeat constructor |].
  apply Forall_cons in Hex as [Hx' Hex]; simpl in Hx'.
  destruct a', r'; try discriminate; simpl;
    repeat split; repeat constructor; assumption.
Qed.

Lemma diffArrays_sides (xs ys : list string) :
  exclusive (diffArrays xs ys)
  /\ concat (oldSide (diffArrays xs ys)) = xs
  /\ concat (newSide (diffArrays xs ys)) = ys.
Proof.
  unfold diffArrays. destruct (lcsOps_sides xs ys) as [Ho Hn].
  revert Ho Hn. generalize (lcsOps xs ys) as ops. intros ops. revert xs ys.
  induction ops as [|op ops IH]; intros xs ys <- <-.
  - repeat split. constructor.
  - destruct (IH _ _ eq_refl eq_refl) as (Hex & Ho & Hn).
    destruct (consOp_sides op _ Hex) as (Hex' & Ho' & Hn').
    simpl. repeat split; [assumption | now rewrite Ho', Ho | now rewrite Hn', Hn].
Qed.

(** With the modelled differ every script covers the reference, and the
    coverage error is never thrown. *)
Lemma diffArrays_covers (reference candidate : string) :
  cursorAfter (diffSegmented diffArrays reference candidate)
  = Z.of_nat (String.length reference).
Proof.
  unfold cursorAfter, diffSegmented. rewrite cursor_old_side.
  destruct (diffArrays_sides (segmentString reference) (segmentString candidate))
    as (_ & -> & _).
  now rewrite join_segmentString.
Qed.

Lemma merge_covers (strings : list string) :
  merge strings <> Throw DiffCoverageMismatch.
Proof.
  destruct strings as [|first [|second others]]; [discriminate .. |].
  intros (str & _ & Hcur)%mergeStrings_mismatch_inv.
  now rewrite diffArrays_covers in Hcur.
Qed.

(** * Further properties of the code *)

(** ** The tokenizer *)

(** X1: the tokens of [segmentString] are the maximal runs of the string:
    none is empty, each holds units of one class only, and two neighbours
    are of different classes. *)
Theorem segmentString_maximal_runs (s : string) :
  Forall (fun tok => tok <> EmptyString) (segmentString s)
  /\ Forall (fun tok => allOfClass (classOf tok) tok = true) (segmentString s)
  /\ alternating (segmentString s) = true.
Proof.
  split; [apply segmentString_nonempty |].
  split; [apply segmentString_one_class | apply segmentString_maximal].
Qed.

Lemma segmentString_unique_witness :
  segmentString (join_empty ["Error"; " "; "on"]) = ["Error"; " "; "on"].
Proof.
  apply segmentString_unique.
  - repeat constructor; discriminate.
  - repeat constructor.
  - reflexivity.
Defined.

(** ** The range partitioner *)

Lemma scanRanges_acc (U : gset Z) (n : nat) :
  forall (p : Z) (a : bool) (rs : Z) (acc : list Range),
    scanRanges U n p a rs acc = acc ++ scanRanges U n p a rs [].
Proof.
  induction n as [|n IH]; intros p a rs acc; [now rewrite app_nil_r |].
  rewrite !scanRanges_S.
  destruct (has U p && negb a); [apply IH |].
  destruct (negb (has U p) && a); [|apply IH].
  rewrite IH, (IH _ _ _ ([] ++ _)). now rewrite app_assoc.
Qed.

Lemma separated_weaken (lo lo' : Z) (ranges : list Range) :
  lo' <= lo -> separated lo ranges -> separated lo' ranges.
Proof. destruct ranges as [|r rest]; simpl; [easy | intros ? (? & ? & ?)]. repeat split; auto; lia. Qed.

Lemma separated_start (lo : Z) (ranges : list Range) (r : Range) :
  separated lo ranges -> In r ranges -> lo <= start r /\ start r < end_ r.
Proof.
  revert lo. induction ranges as [|r' rest IH]; intros lo Hsep Hin; [destruct Hin |].
  destruct Hsep as (Hlo & Hlt & Hrest). destruct Hin as [<-|Hin]; [lia |].
  destruct (IH _ Hrest Hin). lia.
Qed.

(** What the scan of lines 84 to 93 yields from offset [p] on, with a range
    open since [rs] or none. *)
Lemma scanRanges_spec (U : gset Z) (n : nat) :
  forall (p : Z) (a : bool) (rs : Z),
    (a = true -> rs < p /\ forall x, rs <= x < p -> x ∈ U) ->
    let R := scanRanges U n p a rs [] in
    separated (if a then rs else p) R
    /\ Forall (fun r => end_ r < p + Z.of_nat n) R
    /\ (forall r x, In r R -> inRange r x -> x ∈ U)
    /\ (forall r, In r R -> end_ r ∉ U)
    /\ ((0 < n)%nat -> p + Z.of_nat n - 1 ∉ U ->
        forall x, (if a then rs else p) <= x < p + Z.of_nat n -> x ∈ U ->
                  exists r, In r R /\ inRange r x).
Proof.
  induction n as [|n IH]; intros p a rs Hopen.
  - cbn [scanRanges]. repeat split; try constructor; try (intros ? ? []; fail);
      try (intros ? []; fail).
    lia.
  - cbv zeta. rewrite scanRanges_S.
    destruct (has U p) eqn:Hp; destruct a; cbn [andb negb].
    + (* the open range goes on *)
      destruct (Hopen eq_refl) as [Hlt Hin]. apply has_true in Hp.
      destruct (IH (p + 1) true rs) as (Hsep & Hend & Hsound & Hmax & Hcomp).
      { intros _. split; [lia |]. intros x Hx.
        destruct (decide (x = p)) as [->|Hne]; [exact Hp | apply Hin; lia]. }
      repeat split; auto.
      * eapply List.Forall_impl; [|exact Hend]. intros r Hr. simpl in Hr |- *. lia.
      * intros _ Hlast x Hx HxU.
        assert (Hn : (0 < n)%nat).
        { destruct n; [|lia]. replace (p + Z.of_nat 1 - 1) with p in Hlast by lia.
          contradiction. }
        apply Hcomp; auto; [|lia].
        replace (p + 1 + Z.of_nat n - 1) with (p + Z.of_nat (S n) - 1) by lia.
        exact Hlast.
    + (* a range opens at [p] *)
      apply has_true in Hp.
      destruct (IH (p + 1) true p) as (Hsep & Hend & Hsound & Hmax & Hcomp).
      { intros _. split; [lia |]. intros x Hx. now replace x with p by lia. }
      repeat split; auto.
      * eapply List.Forall_impl; [|exact Hend]. intros r Hr. simpl in Hr |- *. lia.
      * intros _ Hlast x Hx HxU.
        assert (Hn : (0 < n)%nat).
        { destruct n; [|lia]. replace (p + Z.of_nat 1 - 1) with p in Hlast by lia.
          contradiction. }
        apply Hcomp; auto; [|lia].
        replace (p + 1 + Z.of_nat n - 1) with (p + Z.of_nat (S n) - 1) by lia.
        exact Hlast.
    + (* the open range is closed at [p] *)
      destruct (Hopen eq_refl) as [Hlt Hin]. apply has_false in Hp.
      rewrite scanRanges_acc. cbn [app].
      destruct (IH (p + 1) false rs) as (Hsep & Hend & Hsound & Hmax & Hcomp);
        [discriminate |].
      repeat split; auto.
      * simpl. lia.
      * constructor; [simpl; lia |].
        eapply List.Forall_impl; [|exact Hend]. intros r Hr. simpl in Hr |- *. lia.
      * intros r x [<-|Hr] Hx; [apply Hin; exact Hx | eapply Hsound; eauto].
      * intros r [<-|Hr]; [exact Hp | now apply Hmax].
      * intros _ Hlast x Hx HxU.
        destruct (Z.lt_ge_cases x p) as [Hxp|Hxp].
        -- exists (mkRange rs p). split; [now left | unfold inRange; simpl; lia].
        -- assert (x <> p) by (intros ->; contradiction).
           destruct (Hcomp) with (x := x) as (r & Hr & Hrx); auto; [lia| |lia|].
           ++ replace (p + 1 + Z.of_nat n - 1) with (p + Z.of_nat (S n) - 1) by lia.
              exact Hlast.
           ++ exists r. split; [now right | exact Hrx].
    + (* nothing is open, nothing opens *)
      apply has_false in Hp.
      destruct (IH (p + 1) false rs) as (Hsep & Hend & Hsound & Hmax & Hcomp);
        [discriminate |].
      repeat split; auto.
      * eapply separated_weaken; [|exact Hsep]. lia.
      * eapply List.Forall_impl; [|exact Hend]. intros r Hr. simpl in Hr |- *. lia.
      * intros _ Hlast x Hx HxU.
        assert (x <> p) by (intros ->; contradiction).
        apply Hcomp; auto; [lia| |lia].
        replace (p + 1 + Z.of_nat n - 1) with (p + Z.of_nat (S n) - 1) by lia.
        exact Hlast.
Qed.

(** The anchor ranges are in order and apart, end in the reference, and
    hold offsets of the set only. *)
Lemma unchangedRangesOf_separated (U : gset Z) (len : nat) :
  separated 0 (unchangedRangesOf U len)
  /\ Forall (fun r => end_ r <= Z.of_nat len) (unchangedRangesOf U len)
  /\ (forall r x, In r (unchangedRangesOf U len) -> inRange r x -> x ∈ U)
  /\ (Z.of_nat len ∉ U ->
      forall x, 0 <= x < Z.of_nat len -> x ∈ U ->
                exists r, In r (unchangedRangesOf U len) /\ inRange r x).
Proof.
  unfold unchangedRangesOf.
  destruct (scanRanges_spec U (len + 1) 0 false (-1)) as (Hsep & Hend & Hsound & _ & Hcomp);
    [discriminate |].
  split; [exact Hsep |]. split; [|split; [exact Hsound |]].
  - eapply List.Forall_impl; [|exact Hend]. intros r Hr. simpl in Hr |- *. lia.
  - intros Hlen x Hx HxU. apply Hcomp; [lia | | lia | exact HxU].
    now replace (0 + Z.of_nat (len + 1) - 1) with (Z.of_nat len) by lia.
Qed.

(** X5: the anchor ranges of lines 82 to 93 are non-empty, in increasing
    order and apart from each other, end at the length of the reference at
    the latest, hold offsets of the common set only and stop at an offset
    that is not in it; when the length itself is not in the set, they hold
    every offset of the set that lies in the reference. *)
Theorem unchangedRanges_partition (U : gset Z) (len : nat) :
  let R := unchangedRangesOf U len in
  separated 0 R
  /\ Forall (fun r => end_ r <= Z.of_nat len) R
  /\ (forall r x, In r R -> inRange r x -> x ∈ U)
  /\ (forall r, In r R -> end_ r ∉ U)
  /\ (Z.of_nat len ∉ U ->
      forall x, 0 <= x < Z.of_nat len ->
                (x ∈ U <-> exists r, In r R /\ inRange r x)).
Proof.
  unfold unchangedRangesOf.
  destruct (scanRanges_spec U (len + 1) 0 false (-1)) as (Hsep & Hend & Hsound & Hmax & Hcomp);
    [discriminate |].
  cbv zeta. repeat split; auto.
  - eapply List.Forall_impl; [|exact Hend]. intros r Hr. simpl in Hr |- *. lia.
  - intros HxU. apply Hcomp; [lia| |lia | exact HxU].
    now replace (0 + Z.of_nat (len + 1) - 1) with (Z.of_nat len) by lia.
  - intros (r & Hr & Hrx). eapply Hsound; eauto.
Qed.

Lemma separated_In_bounds (lo : Z) (ranges : list Range) (r : Range) (x : Z) :
  separated lo ranges -> In r ranges -> inRange r x -> lo <= x.
Proof.
  intros Hsep Hin Hx. destruct (separated_start lo ranges r Hsep Hin).
  unfold inRange in Hx. lia.
Qed.

(** The gaps of lines 112 to 119 between a range [a], the ranges [R] after
    it and a last range [z]. *)
Lemma gapsBetween_spec (R : list Range) :
  forall (a z : Range),
    separated (end_ a) R ->
    Forall (fun r => end_ r <= start z) R ->
    end_ a <= start z ->
    let V := gapsBetween (a :: R ++ [z]) in
    separated (end_ a) V
    /\ Forall (fun v => end_ v <= start z) V
    /\ (forall x, end_ a <= x < start z ->
                  ((exists v, In v V /\ inRange v x)
                   <-> ~ exists r, In r R /\ inRange r x))
    /\ (length R <= length V + 1)%nat
    /\ (match R with [] => True | r :: _ => end_ a < start r end ->
        (length R <= length V)%nat).
Proof.
  induction R as [|r R IH]; intros a z Hsep Hend Haz.
  - cbn [app]. cbv zeta. rewrite gapsBetween_cons. cbn [gapsBetween].
    destruct (Z.eqb_spec (end_ a) (start z)) as [Heq|Hne]; cbn [negb].
    + refine (conj _ (conj _ (conj _ (conj _ _)))).
      * exact I.
      * constructor.
      * intros x Hx. lia.
      * simpl. lia.
      * simpl. lia.
    + refine (conj _ (conj _ (conj _ (conj _ _)))).
      * simpl. lia.
      * repeat constructor. simpl. lia.
      * intros x Hx. split; [intros _ (r & [] & _) |].
        intros _. exists (mkRange (end_ a) (start z)). split; [now left | exact Hx].
      * simpl. lia.
      * simpl. lia.
  - destruct Hsep as (Hlo & Hlt & Hsep).
    apply Forall_cons in Hend as [Hrz Hend].
    assert (Hsep' : separated (end_ r) R) by (eapply separated_weaken; [|exact Hsep]; lia).
    destruct (IH r z Hsep' Hend Hrz) as (HsepV & HendV & HcovV & Hlen1 & Hlen2).
    assert (Hinner : (length R <= length (gapsBetween (r :: R ++ [z])))%nat).
    { apply Hlen2. destruct R as [|r' R']; [exact I |].
      destruct Hsep as (Hr' & _). lia. }
    cbn [app]. cbv zeta. rewrite gapsBetween_cons.
    assert (Hcov : forall x, end_ a <= x < start z ->
              ((exists v, In v (gapsBetween (r :: R ++ [z])) /\ inRange v x)
               <-> end_ r <= x /\ ~ exists r', In r' R /\ inRange r' x)).
    { intros x Hx. split.
      - intros (v & Hv & Hvx).
        assert (end_ r <= x) by (eapply separated_In_bounds; eauto).
        split; [assumption |]. apply HcovV; [lia | now exists v].
      - intros [Hrx Hnone]. apply HcovV; [lia | exact Hnone]. }
    assert (Hafter : forall r' x, In r' R -> inRange r' x -> end_ r < x).
    { intros r' x Hr' Hx'. pose proof (separated_In_bounds _ _ _ _ Hsep Hr' Hx'). lia. }
    destruct (Z.eqb_spec (end_ a) (start r)) as [Heq|Hne]; cbn [negb].
    + refine (conj _ (conj _ (conj _ (conj _ _)))).
      * eapply separated_weaken; [|exact HsepV]. lia.
      * exact HendV.
      * intros x Hx. split.
        -- intros Hv (r' & [<-|Hr'] & Hrx).
           ++ apply Hcov in Hv as [Hge _]; [|assumption]. unfold inRange in Hrx. lia.
           ++ apply Hcov in Hv as [_ Hnone]; [|assumption]. apply Hnone. now exists r'.
        -- intros Hnone. apply Hcov; [assumption |]. split.
           ++ destruct (Z.lt_ge_cases x (end_ r)) as [Hx'|Hx']; [|lia].
              exfalso. apply Hnone. exists r. split; [now left | unfold inRange; lia].
           ++ intros (r' & Hr' & Hrx). apply Hnone. exists r'.
              split; [now right | exact Hrx].
      * cbn [length]. lia.
      * cbn [length]. lia.
    + refine (conj _ (conj _ (conj _ (conj _ _)))).
      * simpl. repeat split; try lia.
        eapply separated_weaken; [|exact HsepV]. lia.
      * constructor; [simpl; lia | exact HendV].
      * intros x Hx. split.
        -- intros (v & [<-|Hv] & Hvx) (r' & [<-|Hr'] & Hrx).
           ++ unfold inRange in *. simpl in *. lia.
           ++ pose proof (Hafter _ _ Hr' Hrx). unfold inRange in Hvx. simpl in Hvx. lia.
           ++ assert (end_ r <= x) by (eapply separated_In_bounds; eauto).
              unfold inRange in Hrx. lia.
           ++ destruct (proj1 (Hcov x Hx)) as [_ Hnone]; [now exists v |].
              apply Hnone. now exists r'.
        -- intros Hnone. destruct (Z.lt_ge_cases x (start r)) as [Hx'|Hx'].
           ++ exists (mkRange (end_ a) (start r)). split; [now left |].
              unfold inRange. simpl. lia.
           ++ destruct (proj2 (Hcov x Hx)) as (v & Hv & Hvx).
              ** split.
                 --- destruct (Z.lt_ge_cases x (end_ r)) as [Hx''|Hx'']; [|lia].
                     exfalso. apply Hnone. exists r.
                     split; [now left | unfold inRange; lia].
                 --- intros (r' & Hr' & Hrx). apply Hnone. exists r'.
                     split; [now right | exact Hrx].
              ** exists v. split; [now right | exact Hvx].
      * cbn [length]. lia.
      * cbn [length]. lia.
Qed.

(** X6: the varying ranges of lines 101 to 119 are non-empty, in increasing
    order and apart from each other, lie within the reference, and, when the
    length itself is not in the common set, hold exactly the offsets of the
    reference that are not in the set. *)
Theorem varyingRanges_complement (U : gset Z) (len : nat) :
  let V := varyingRangesOf (unchangedRangesOf U len) len in
  separated 0 V
  /\ Forall (fun v => end_ v <= Z.of_nat len) V
  /\ (Z.of_nat len ∉ U ->
      forall x, 0 <= x < Z.of_nat len ->
                (x ∉ U <-> exists v, In v V /\ inRange v x)).
Proof.
  destruct (unchangedRangesOf_separated U len) as (Hsep & Hend & Hsound & Hcomp).
  destruct (gapsBetween_spec (unchangedRangesOf U len) (mkRange (-1) 0)
              (mkRange (Z.of_nat len) (Z.of_nat len + 1)) Hsep Hend)
    as (HsepV & HendV & HcovV & _); [simpl; lia |].
  cbv zeta. unfold varyingRangesOf, augment. cbn [app].
  simpl in HsepV, HendV, HcovV.
  repeat split; auto.
  - intros HxU. apply HcovV; [assumption |].
    intros (r & Hr & Hrx). apply HxU. eapply Hsound; eauto.
  - intros Hv HxU. apply HcovV in Hv; [|assumption]. apply Hv. now apply Hcomp.
Qed.

(** ** The composer *)

Lemma interleave_cons {A : Type} (xs : list A) :
  forall ys, interleave xs ys
             = match xs with [] => [] | x :: xs' => x :: interleave ys xs' end.
Proof.
  induction xs as [|x xs IH]; intros ys; [reflexivity |].
  destruct ys as [|y ys]; [now destruct xs |].
  cbn [interleave]. now rewrite IH.
Qed.

Lemma interleave_length {A : Type} (xs : list A) :
  forall ys, (length ys <= length xs <= length ys + 1)%nat ->
             length (interleave xs ys) = (length xs + length ys)%nat.
Proof.
  induction xs as [|x xs IH]; intros ys Hlen.
  - destruct ys; simpl in *; [reflexivity | lia].
  - destruct ys as [|y ys]; cbn [interleave length] in *.
    + destruct xs; simpl in *; [reflexivity | lia].
    + rewrite IH by lia. lia.
Qed.

Section ComposerShape.

Variable reference : string.
Variable unchangedRanges varyingRanges : list Range.
Variable varyingLists : list (list string).

#[local] Abbreviation loop' :=
  (composeLoop reference unchangedRanges varyingRanges varyingLists).
#[local] Abbreviation bracketsFrom := (fun varyingIdx : nat =>
  map (bracket varyingLists)
      (seq varyingIdx (length varyingRanges - varyingIdx))).
#[local] Abbreviation slicesFrom := (fun unchangedIdx : nat =>
  map (fun r => slice reference (start r) (end_ r))
      (drop unchangedIdx unchangedRanges)).

Lemma composeLoop_weave_from (n : nat) :
  forall (onVarying : bool) (varyingIdx unchangedIdx : nat) (combined : list string),
    ((length varyingRanges - varyingIdx) + (length unchangedRanges - unchangedIdx) <= n)%nat ->
    loop' onVarying varyingIdx unchangedIdx combined
    = combined ++ weave onVarying (bracketsFrom varyingIdx) (slicesFrom unchangedIdx).
Proof.
  induction n as [|n IH]; intros [|] vi ui combined Hn; unfold weave.
  - rewrite composeLoop_varying_end by lia.
    replace (length varyingRanges - vi)%nat with O by lia. simpl. now rewrite app_nil_r.
  - rewrite composeLoop_unchanged.
    destruct (unchangedRanges !! ui) as [range|] eqn:Hu.
    + apply lookup_lt_Some in Hu. lia.
    + apply lookup_ge_None in Hu. rewrite drop_ge by lia. simpl. now rewrite app_nil_r.
  - destruct (decide (vi < length varyingRanges)%nat) as [Hlt|Hge].
    + rewrite composeLoop_varying by exact Hlt. rewrite IH by lia. unfold weave.
      replace (length varyingRanges - vi)%nat with (S (length varyingRanges - S vi)) by lia.
      cbn [seq map]. rewrite (interleave_cons (_ :: _)), <- app_assoc. reflexivity.
    + rewrite composeLoop_varying_end by exact Hge.
      replace (length varyingRanges - vi)%nat with O by lia. simpl. now rewrite app_nil_r.
  - rewrite composeLoop_unchanged.
    destruct (unchangedRanges !! ui) as [range|] eqn:Hu.
    + rewrite IH by (apply lookup_lt_Some in Hu; lia). unfold weave.
      rewrite (drop_S _ _ _ Hu). cbn [map].
      rewrite (interleave_cons (_ :: _)), <- app_assoc. reflexivity.
    + apply lookup_ge_None in Hu. rewrite drop_ge by lia. simpl. now rewrite app_nil_r.
Qed.

End ComposerShape.

(** X10: the loop of lines 200 to 221 takes the brackets of the varying
    ranges and the texts of the anchor ranges in turn, from the kind it
    starts on, and stops when the kind whose turn it is has run out. *)
Theorem composeLoop_weave (reference : string) (unchangedRanges varyingRanges : list Range)
    (varyingLists : list (list string)) (onVarying : bool) :
  composeLoop reference unchangedRanges varyingRanges varyingLists onVarying 0 0 []
  = weave onVarying
      (map (bracket varyingLists) (seq 0 (length varyingRanges)))
      (map (fun r => slice reference (start r) (end_ r)) unchangedRanges).
Proof.
  rewrite (composeLoop_weave_from _ _ _ _ _ _ _ _ _ (Nat.le_refl _)).
  now rewrite Nat.sub_0_r, drop_0.
Qed.

Lemma interleave_Permutation {A : Type} (xs : list A) :
  forall ys, (length ys <= length xs <= length ys + 1)%nat ->
             interleave xs ys ≡ₚ xs ++ ys.
Proof.
  induction xs as [|x xs IH]; intros ys Hlen.
  - destruct ys; simpl in *; [reflexivity | lia].
  - destruct ys as [|y ys]; cbn [interleave length] in *.
    + destruct xs; simpl in *; [reflexivity | lia].
    + rewrite IH by lia. cbn [app]. constructor. apply Permutation_middle.
Qed.

(** The varying ranges of a partition are as many as its anchor ranges, one
    more or one less; they are not fewer when the first of them starts at
    offset 0, and not more when it does not. *)
Lemma partition_counts (U : gset Z) (len : nat) (first : Range) (others : list Range) :
  varyingRangesOf (unchangedRangesOf U len) len = first :: others ->
  if start first =? 0
  then (length (unchangedRangesOf U len) <= length (first :: others)
        <= length (unchangedRangesOf U len) + 1)%nat
  else (length (first :: others) <= length (unchangedRangesOf U len)
        <= length (first :: others) + 1)%nat.
Proof.
  intros Hv.
  pose proof (enoughTurns_start _ _ _ _ Hv) as Hturns. unfold enoughTurns in Hturns.
  destruct (unchangedRangesOf_separated U len) as (Hsep & Hend & _).
  destruct (gapsBetween_spec (unchangedRangesOf U len) (mkRange (-1) 0)
              (mkRange (Z.of_nat len) (Z.of_nat len + 1)) Hsep Hend)
    as (_ & _ & _ & Hlen1 & Hlen2); [simpl; lia |].
  unfold varyingRangesOf, augment in Hv. cbn [app] in Hv.
  rewrite Hv in Hlen1, Hlen2.
  destruct (Z.eqb_spec (start first) 0) as [H0|Hne]; [|lia].
  split; [|lia]. apply Hlen2.
  destruct (unchangedRangesOf U len) as [|r R] eqn:HR; [exact I |].
  cbn [end_]. destruct Hsep as (Hlo & Hlt & Hsep).
  destruct (Z.eq_dec (start r) 0) as [Hr0|Hr0]; [|lia].
  exfalso. apply Forall_cons in Hend as [Hrz Hend].
  destruct (gapsBetween_spec R r (mkRange (Z.of_nat len) (Z.of_nat len + 1)))
    as (HsepV & _); [eapply separated_weaken; [|exact Hsep]; lia | exact Hend
                     | simpl; lia |].
  cbn [app] in Hv. rewrite gapsBetween_cons in Hv. cbn [end_] in Hv.
  rewrite <- Hr0, Z.eqb_refl in Hv. cbn [negb] in Hv.
  rewrite Hv in HsepV. destruct HsepV as (Hfirst & _). lia.
Qed.

(** X11: on the ranges of the partitioner the composer drops nothing: the
    pieces of the result are the brackets of all the varying ranges and the
    texts of all the anchor ranges, each once. *)
Theorem composer_drops_nothing (reference : string) (U : gset Z) (len : nat)
    (varyingLists : list (list string)) (first : Range) (others : list Range) :
  varyingRangesOf (unchangedRangesOf U len) len = first :: others ->
  composeLoop reference (unchangedRangesOf U len) (first :: others) varyingLists
    (start first =? 0) 0 0 []
  ≡ₚ map (bracket varyingLists) (seq 0 (length (first :: others)))
     ++ map (fun r => slice reference (start r) (end_ r)) (unchangedRangesOf U len).
Proof.
  intros Hv. pose proof (partition_counts U len first others Hv) as Hcount.
  rewrite (composeLoop_weave_from _ _ _ _ _ _ _ _ _ (Nat.le_refl _)).
  rewrite Nat.sub_0_r, drop_0. cbn [app]. unfold weave.
  destruct (start first =? 0).
  - apply interleave_Permutation. rewrite !length_map, length_seq. exact Hcount.
  - rewrite interleave_Permutation by (rewrite !length_map, length_seq; exact Hcount).
    apply Permutation_app_comm.
Qed.

Lemma composer_drops_nothing_witness :
  varyingRangesOf (unchangedRangesOf ({[1%Z]} : gset Z) 3) 3
    = [mkRange 0 1; mkRange 2 3]
  /\ composeLoop "a b" (unchangedRangesOf ({[1%Z]} : gset Z) 3)
       [mkRange 0 1; mkRange 2 3] [["a"; "b"]; ["c"]] (0 =? 0) 0 0 []
     ≡ₚ map (bracket [["a"; "b"]; ["c"]]) (seq 0 2)
        ++ map (fun r => slice "a b" (start r) (end_ r))
             (unchangedRangesOf ({[1%Z]} : gset Z) 3).
Proof.
  assert (Hv : varyingRangesOf (unchangedRangesOf ({[1%Z]} : gset Z) 3) 3
               = [mkRange 0 1; mkRange 2 3]) by (vm_compute; reflexivity).
  split; [exact Hv |].
  exact (composer_drops_nothing "a b" {[1%Z]} 3 [["a"; "b"]; ["c"]]
           (mkRange 0 1) [mkRange 2 3] Hv).
Defined.

(** ** The anchor finder *)

(** X3: with a differ whose scripts keep the tokens of the reference (kept or
    removed, in order), a merge of two or more strings never throws the
    coverage error. *)
Theorem old_side_kept_no_mismatch (differ : Differ) (first second : string)
    (others : list string) :
  (forall str, In str (first :: second :: others) ->
     concat (oldSide (differ (segmentString first) (segmentString str)))
     = segmentString first) ->
  mergeStrings differ (first :: second :: others) <> Throw DiffCoverageMismatch.
Proof.
  intros Hold (str & Hin & Hcur)%mergeStrings_mismatch_inv. apply Hcur.
  unfold cursorAfter, diffSegmented.
  now rewrite cursor_old_side, (Hold str Hin), join_segmentString.
Qed.

Lemma old_side_kept_witness :
  (forall str, In str ["X is red"; "X is blue"] ->
     concat (oldSide (diffArrays (segmentString "X is red") (segmentString str)))
     = segmentString "X is red")
  /\ merge ["X is red"; "X is blue"] <> Throw DiffCoverageMismatch.
Proof.
  assert (Hold : forall str, In str ["X is red"; "X is blue"] ->
            concat (oldSide (diffArrays (segmentString "X is red") (segmentString str)))
            = segmentString "X is red").
  { intros str [<-|[<-|[]]]; vm_compute; reflexivity. }
  split; [exact Hold |].
  exact (old_side_kept_no_mismatch diffArrays "X is red" "X is blue" [] Hold).
Defined.

(** X4: the offsets that the anchor finder returns for a script lie in the
    reference, and they are the offsets that the second pass over the same
    script gives to the units it does not count as adjacent. *)
Theorem unchangedSet_offsets (reference : string) (diff : list (Change string))
    (U : gset Z) :
  unchangedSet reference diff = Ok U ->
  forall x, x ∈ U <->
            0 <= x < Z.of_nat (String.length reference)
            /\ exists c, In c (charsOf diff 0) /\ countAdjacent c = false /\ ptr c = x.
Proof.
  intros HU x.
  assert (Hcur : cursorAfter diff = Z.of_nat (String.length reference)).
  { destruct (Z.eq_dec (cursorAfter diff) (Z.of_nat (String.length reference)))
      as [Heq|Hne]; [exact Heq |].
    assert (unchangedSet reference diff = Throw DiffCoverageMismatch)
      by now apply unchangedSet_Throw. congruence. }
  rewrite (unchangedSet_Ok _ _ Hcur) in HU. injection HU as <-.
  rewrite markEdits_elem_chars. split.
  - intros [H|(c & Hin & Hadj & Hptr)]; [now apply not_elem_of_empty in H |].
    split; [|now exists c].
    pose proof (charsOf_ptr_bounds diff ∅ 0 c Hin) as Hb.
    rewrite unchangedSet_cursor, Hcur in Hb.
    assert (Hlt : ptr c < Z.of_nat (String.length reference)); [|lia].
    apply Z.le_neq. split; [lia |]. intros Heq.
    clear Hb. revert Hin Hadj Heq. rewrite <- Hcur, <- unchangedSet_cursor.
    generalize (∅ : gset Z). generalize 0 at 1 2 as p. clear.
    induction diff as [|edit diff IH]; intros p V; simpl; [intros [] |].
    destruct (added edit); simpl.
    + intros [Hin|Hin]%in_app_iff Hadj Heq; [|eapply IH; eauto].
      apply addedChars_spec in Hin as [? _]. congruence.
    + pose proof (keptChars_snd (chars_of (value edit)) (removed edit) p) as Hk.
      pose proof (markChars_ptr (String.length (value edit)) (removed edit) V p) as Hm.
      pose proof (keptChars_adjacent (chars_of (value edit)) (removed edit) p c) as Hc.
      destruct (keptChars _ _ p) as [chars pk].
      destruct (markChars _ _ V p) as [V' pm].
      simpl in Hk, Hm, Hc. rewrite length_chars_of in Hk, Hc.
      assert (pk = pm) as -> by lia.
      intros [Hin|Hin]%in_app_iff Hadj Heq; [|eapply IH; eauto].
      destruct (Hc Hin) as [_ Hb]. pose proof (markEdits_ptr_le diff V' pm). lia.
  - intros [_ H]. now right.
Qed.

Lemma unchangedSet_offsets_witness :
  unchangedSet "a b" (diffSegmented diffArrays "a b" "c ") = Ok ({[1%Z]} : gset Z)
  /\ (1 ∈ ({[1%Z]} : gset Z) <->
      0 <= 1 < Z.of_nat (String.length "a b")
      /\ exists c, In c (charsOf (diffSegmented diffArrays "a b" "c ") 0)
                   /\ countAdjacent c = false /\ ptr c = 1).
Proof.
  assert (HU : unchangedSet "a b" (diffSegmented diffArrays "a b" "c ")
               = Ok ({[1%Z]} : gset Z)) by (vm_compute; reflexivity).
  split; [exact HU |].
  exact (unchangedSet_offsets "a b" _ _ HU 1).
Defined.

(** ** The variant extractor *)

Lemma skipBefore_suffix (rangeStart : Z) (rest rest1 : list CharEntry) (done1 : bool) :
  skipBefore rangeStart rest = Ok (rest1, done1) ->
  exists skipped, rest = skipped ++ rest1.
Proof.
  revert rest1 done1. induction rest as [|c rest IH]; intros rest1 done1; simpl;
    [discriminate |].
  destruct (ptr c <? rangeStart).
  - destruct rest as [|c' rest'].
    + intros [= <- <-]. now exists [c].
    + intros H. destruct (IH _ _ H) as [skipped Hs]. exists (c :: skipped).
      now rewrite Hs.
  - intros [= <- <-]. now exists [].
Qed.

Lemma takeWithin_taken (rangeEnd : Z) (rest rest2 : list CharEntry) (done2 : bool)
    (varyingPart varyingPart' : list ascii) :
  takeWithin rangeEnd rest varyingPart = Ok (rest2, done2, varyingPart') ->
  exists taken pushed,
    rest = taken ++ rest2 /\ varyingPart' = varyingPart ++ pushed
    /\ sublist pushed (map cvalue taken).
Proof.
  revert rest2 done2 varyingPart varyingPart'.
  induction rest as [|c rest IH]; intros rest2 done2 vp vp'; simpl; [discriminate |].
  destruct (ptr c <=? rangeEnd).
  - assert (Hstep : exists here,
              (if (ptr c <? rangeEnd) || countAdjacent c then vp ++ [cvalue c] else vp)
              = vp ++ here /\ sublist here [cvalue c]).
    { destruct ((ptr c <? rangeEnd) || countAdjacent c).
      - now exists [cvalue c].
      - exists []. split; [now rewrite app_nil_r | apply sublist_nil_l]. }
    destruct Hstep as (here & -> & Hhere).
    destruct rest as [|c' rest'].
    + intros [= <- <- <-]. exists [c], here. repeat split; auto.
    + intros H. destruct (IH _ _ _ _ H) as (taken & pushed & Hr & Hvp & Hsub).
      exists (c :: taken), (here ++ pushed). repeat split.
      * now rewrite Hr.
      * now rewrite Hvp, app_assoc.
      * change (map cvalue (c :: taken)) with ([cvalue c] ++ map cvalue taken).
        now apply sublist_app.
  - intros [= <- <- <-]. exists [], []. repeat split; [now rewrite app_nil_r | constructor].
Qed.

Lemma chars_of_string_of (cs : list ascii) : chars_of (string_of cs) = cs.
Proof. apply list_ascii_of_string_of_list_ascii. Qed.

Lemma extractParts_parts (varyingRanges : list Range) :
  forall (rest : list CharEntry) (varyingParts parts : list string),
    extractParts varyingRanges rest varyingParts = Ok parts ->
    exists new,
      parts = varyingParts ++ new
      /\ (length new <= length varyingRanges)%nat
      /\ sublist (concat (map chars_of new)) (map cvalue rest).
Proof.
  induction varyingRanges as [|range ranges IH]; intros rest acc parts; simpl.
  - intros [= <-]. exists [].
    repeat split; [now rewrite app_nil_r | simpl; lia | apply sublist_nil_l].
  - destruct rest as [|c rest]; [discriminate |].
    destruct (ptr c >? end_ range).
    + intros H. destruct (IH _ _ _ H) as (new & Hp & Hlen & Hsub).
      exists new. repeat split; auto; simpl; lia.
    + destruct (skipBefore (start range) (c :: rest)) as [[rest1 done1]|e] eqn:Hskip;
        [|discriminate].
      rewrite bind_Ok. apply skipBefore_suffix in Hskip as [skipped Hskip].
      destruct done1.
      { intros [= <-]. exists []. repeat split;
          [now rewrite app_nil_r | simpl; lia | apply sublist_nil_l]. }
      destruct (takeWithin (end_ range) rest1 []) as [[[rest2 done2] vp]|e] eqn:Htake;
        [|discriminate].
      rewrite bind_Ok.
      apply takeWithin_taken in Htake as (taken & pushed & Hrest1 & Hvp & Hsub).
      simpl in Hvp. subst vp.
      assert (Hpushed : sublist pushed (map cvalue (c :: rest))).
      { rewrite Hskip, Hrest1, !map_app.
        apply sublist_inserts_l, sublist_inserts_r, Hsub. }
      destruct done2.
      * intros [= <-]. exists [string_of pushed]. repeat split; [simpl; lia |].
        simpl. now rewrite app_nil_r, chars_of_string_of.
      * intros H. destruct (IH _ _ _ H) as (new & Hp & Hlen & Hsubnew).
        exists (string_of pushed :: new). repeat split.
        -- now rewrite Hp, <- app_assoc.
        -- simpl. lia.
        -- change (concat (map chars_of (string_of pushed :: new)))
             with (chars_of (string_of pushed) ++ concat (map chars_of new)).
           rewrite chars_of_string_of, Hskip, Hrest1, !map_app.
           apply sublist_inserts_l, sublist_app; assumption.
Qed.

(** The units that the second pass records are the units of the edits that
    are added or not removed, in order. *)
Lemma charsOf_values (diff : list (Change string)) :
  forall p, map cvalue (charsOf diff p) = concat (map chars_of (shownValues diff)).
Proof.
  unfold shownValues.
  induction diff as [|edit diff IH]; intros p; [reflexivity |]. simpl.
  destruct (added edit) eqn:Ha; simpl.
  - rewrite map_app, IH. f_equal. unfold addedChars. rewrite map_map. apply map_id.
  - assert (Hk : forall v q, map cvalue (fst (keptChars v (removed edit) q))
                  = if removed edit then [] else v).
    { induction v as [|a v IHv]; intros q; simpl; [now destruct (removed edit) |].
      specialize (IHv (q + 1)). destruct (keptChars v (removed edit) (q + 1)).
      simpl in *. destruct (removed edit); simpl; [assumption | now rewrite IHv]. }
    specialize (Hk (chars_of (value edit)) p).
    destruct (keptChars (chars_of (value edit)) (removed edit) p) as [chars p'].
    simpl in Hk. rewrite map_app, Hk, IH.
    now destruct (removed edit).
Qed.

(** X7: a variant list never holds more variants than there are varying
    ranges, and its variants, one after the other, are units of the script's
    added and kept edits, in the order of the script. *)
Theorem varyingParts_of_script (varyingRanges : list Range)
    (diff : list (Change string)) (parts : list string) :
  varyingPartsOf varyingRanges diff = Ok parts ->
  (length parts <= length varyingRanges)%nat
  /\ sublist (chars_of (join_empty parts))
       (chars_of (join_empty (shownValues diff))).
Proof.
  unfold varyingPartsOf. intros (new & -> & Hlen & Hsub)%extractParts_parts.
  simpl. split; [exact Hlen |].
  now rewrite !chars_of_join_empty, <- (charsOf_values diff 0).
Qed.

Lemma varyingParts_of_script_witness :
  varyingPartsOf [mkRange 0 1; mkRange 2 3] (diffSegmented diffArrays "a b" "c ")
    = Ok ["c"]
  /\ (length ["c"] <= length [mkRange 0 1; mkRange 2 3])%nat
  /\ sublist (chars_of (join_empty ["c"]))
       (chars_of (join_empty (shownValues (diffSegmented diffArrays "a b" "c ")))).
Proof.
  assert (H : varyingPartsOf [mkRange 0 1; mkRange 2 3]
                (diffSegmented diffArrays "a b" "c ") = Ok ["c"])
    by (vm_compute; reflexivity).
  split; [exact H |].
  exact (varyingParts_of_script _ _ _ H).
Defined.

(** ** Identical strings, and when the merger throws a [TypeError] *)

(** X9: with any differ that reports an array against itself as unchanged,
    a merge of a string with one or more copies of itself throws a
    [TypeError]: no range varies, and line 197 reads the first varying
    range. *)
Theorem copies_throw_TypeError (differ : Differ) (s : string) (copies : nat) :
  (forall toks : list string,
      Forall isUnchanged (differ toks toks)
      /\ concat (map value (differ toks toks)) = toks) ->
  mergeStrings differ (s :: s :: repeat s copies) = Throw TypeError.
Proof.
  intros Hsame. apply identical_strings_TypeError; [exact Hsame | discriminate |].
  constructor; [reflexivity |].
  apply List.Forall_forall. intros t Ht. now apply repeat_spec in Ht.
Qed.

Lemma copies_throw_TypeError_witness :
  (forall toks : list string,
      Forall isUnchanged (diffArrays toks toks)
      /\ concat (map value (diffArrays toks toks)) = toks)
  /\ merge ("disk full" :: "disk full" :: repeat "disk full" 2) = Throw TypeError.
Proof.
  split; [exact diffArrays_same |].
  exact (copies_throw_TypeError diffArrays "disk full" 2 diffArrays_same).
Defined.

Lemma join_empty_concat (tokss : list (list string)) :
  join_empty (map join_empty tokss) = join_empty (concat tokss).
Proof.
  induction tokss as [|toks tokss IH]; [reflexivity |].
  cbn [map concat]. now rewrite join_empty_cons, join_empty_app, IH.
Qed.

Lemma shownValues_new_side (script : list (Change (list string))) :
  exclusive script ->
  shownValues
    (map (fun m =>
            let v := join_empty (value m) in
            mkChange v (String.length v) (added m) (removed m)) script)
  = map join_empty (newSide script).
Proof.
  unfold shownValues, newSide, exclusive.
  induction 1 as [|e script He _ IH]; [reflexivity |].
  cbn [map List.filter added removed value].
  destruct (added e), (removed e); try discriminate; cbn [orb negb map];
    now rewrite IH.
Qed.

(** X8: with a differ whose scripts hold the tokens of the candidate (kept or
    added, in order) and mark no edit as both added and removed, the variants
    of a candidate, one after the other, are units of the candidate itself,
    in their order. *)
Theorem variants_from_candidate (differ : Differ) (reference candidate : string)
    (varyingRanges : list Range) (parts : list string) :
  exclusive (differ (segmentString reference) (segmentString candidate)) ->
  concat (newSide (differ (segmentString reference) (segmentString candidate)))
  = segmentString candidate ->
  varyingPartsOf varyingRanges (diffSegmented differ reference candidate) = Ok parts ->
  sublist (chars_of (join_empty parts)) (chars_of candidate).
Proof.
  intros Hex Hnew Hparts.
  unfold varyingPartsOf in Hparts.
  apply extractParts_parts in Hparts as (new & -> & _ & Hsub).
  rewrite (charsOf_values _ 0) in Hsub. unfold diffSegmented in Hsub.
  rewrite shownValues_new_side in Hsub by exact Hex.
  rewrite <- (chars_of_join_empty (map join_empty _)) in Hsub.
  rewrite join_empty_concat, Hnew, join_segmentString in Hsub.
  simpl. now rewrite chars_of_join_empty.
Qed.

Lemma variants_from_candidate_witness :
  (exclusive (diffArrays (segmentString "a b c") (segmentString "x b y"))
   /\ concat (newSide (diffArrays (segmentString "a b c") (segmentString "x b y")))
      = segmentString "x b y"
   /\ varyingPartsOf [mkRange 0 1; mkRange 3 5]
        (diffSegmented diffArrays "a b c" "x b y") = Ok ["x"; " y"])
  /\ sublist (chars_of (join_empty ["x"; " y"])) (chars_of "x b y").
Proof.
  assert (H1 : exclusive (diffArrays (segmentString "a b c") (segmentString "x b y")))
    by (vm_compute; repeat constructor).
  assert (H2 : concat (newSide (diffArrays (segmentString "a b c")
                                  (segmentString "x b y")))
               = segmentString "x b y") by (vm_compute; reflexivity).
  assert (H3 : varyingPartsOf [mkRange 0 1; mkRange 3 5]
                 (diffSegmented diffArrays "a b c" "x b y") = Ok ["x"; " y"])
    by (vm_compute; reflexivity).
  split; [repeat split; assumption |].
  exact (variants_from_candidate diffArrays "a b c" "x b y" _ _ H1 H2 H3).
Defined.

(** ** [getRoomForReceiver] *)

Lemma split_cons (sep c : ascii) (s : string) :
  split sep (String c s) =
  if Ascii.eqb c sep then EmptyString :: split sep s
  else match split sep s with
       | piece :: pieces => String c piece :: pieces
       | [] => [String c EmptyString]
       end.
Proof. reflexivity. Qed.

Lemma split_append (sep : ascii) (a b : string) :
  freeOf sep a = true -> split sep (a +:+ String sep b) = a :: split sep b.
Proof.
  unfold freeOf. induction a as [|c a IH]; intros Hfree.
  - rewrite append_empty_l, split_cons. now rewrite Ascii.eqb_refl.
  - simpl in Hfree. apply andb_prop in Hfree as [Hc Hfree].
    rewrite append_cons, split_cons, IH by exact Hfree.
    now destruct (Ascii.eqb c sep).
Qed.

Lemma split_free (sep : ascii) (a : string) :
  freeOf sep a = true -> split sep a = [a].
Proof.
  unfold freeOf. induction a as [|c a IH]; intros Hfree; [reflexivity |].
  simpl in Hfree. apply andb_prop in Hfree as [Hc Hfree].
  rewrite split_cons, IH by exact Hfree. now destruct (Ascii.eqb c sep).
Qed.

Lemma concat_cons2 (sep a b : string) (rest : list string) :
  String.concat sep (a :: b :: rest) = a +:+ sep +:+ String.concat sep (b :: rest).
Proof. reflexivity. Qed.

(** Splitting what was joined gives the pieces back, when no piece holds the
    separator. *)
Lemma split_concat (sep : ascii) (pieces : list string) :
  pieces <> [] ->
  Forall (fun piece => freeOf sep piece = true) pieces ->
  split sep (String.concat (String sep EmptyString) pieces) = pieces.
Proof.
  intros Hne Hall. induction Hall as [|a pieces Ha Hall IH]; [congruence |].
  destruct pieces as [|b rest]; [now apply split_free |].
  rewrite concat_cons2, append_cons, append_empty_l, split_append by exact Ha.
  now rewrite IH.
Qed.

Lemma freeOf_append (sep : ascii) (a b : string) :
  freeOf sep (a +:+ b) = freeOf sep a && freeOf sep b.
Proof. unfold freeOf. now rewrite chars_of_append, forallb_app. Qed.

Lemma findRoom_entries (receiver : string) (rooms : list (string * string)) :
  Forall (fun entry => plainEntry entry = true) rooms ->
  findRoom (Some receiver)
    (map (fun entry => fst entry +:+ "/" +:+ snd entry) rooms)
  = match List.find (fun entry => String.eqb (fst entry) receiver) rooms with
    | Some entry => Room (snd entry)
    | None => NoRoom
    end.
Proof.
  induction 1 as [|[rcv room] rooms Hplain _ IH]; [reflexivity |].
  unfold plainEntry in Hplain. simpl in Hplain.
  apply andb_prop in Hplain as [Hplain Hroom]. apply andb_prop in Hplain as [Hplain _].
  apply andb_prop in Hplain as [_ Hrcv].
  cbn [map findRoom List.find fst snd].
  change ("/" +:+ room) with (String "/" room).
  rewrite split_append, split_free by assumption. cbn [lookup list_lookup].
  destruct (String.eqb_spec rcv receiver) as [->|Hne].
  - now rewrite bool_decide_eq_true_2.
  - rewrite bool_decide_eq_false_2 by congruence. exact IH.
Qed.

(** X12: when [MATRIX_ROOMS] lists receivers and rooms that hold neither
    [|] nor [/], the room of a receiver is the room of the first entry for
    that receiver, and [false] when there is no entry for it. *)
Theorem getRoomForReceiver_configured (rooms : list (string * string))
    (receiver : string) :
  rooms <> [] ->
  Forall (fun entry => plainEntry entry = true) rooms ->
  getRoomForReceiver (Some (encodeRooms rooms)) (Some receiver)
  = Ok match List.find (fun entry => String.eqb (fst entry) receiver) rooms with
       | Some entry => Room (snd entry)
       | None => NoRoom
       end.
Proof.
  intros Hne Hplain. unfold getRoomForReceiver, encodeRooms. f_equal.
  rewrite split_concat.
  - now apply findRoom_entries.
  - now destruct rooms.
  - apply Forall_map. eapply List.Forall_impl; [|exact Hplain].
    intros [rcv room] H. unfold plainEntry in H. simpl in H |- *.
    apply andb_prop in H as [H H4]. apply andb_prop in H as [H H3].
    apply andb_prop in H as [H1 H2].
    rewrite !freeOf_append, H1, H3. reflexivity.
Qed.

Lemma getRoomForReceiver_configured_witness :
  ([("ops", "!a:example.org"); ("dev", "!b:example.org")] <> []
   /\ Forall (fun entry => plainEntry entry = true)
        [("ops", "!a:example.org"); ("dev", "!b:example.org")])
  /\ getRoomForReceiver (Some "ops/!a:example.org|dev/!b:example.org") (Some "dev")
     = Ok (Room "!b:example.org").
Proof.
  assert (H1 : [("ops", "!a:example.org"); ("dev", "!b:example.org")] <> [])
    by discriminate.
  assert (H2 : Forall (fun entry => plainEntry entry = true)
                 [("ops", "!a:example.org"); ("dev", "!b:example.org")])
    by (repeat constructor).
  split; [split; assumption |].
  exact (getRoomForReceiver_configured _ "dev" H1 H2).
Defined.

(** X13: whatever [MATRIX_ROOMS] holds, the first entry whose text before
    the first [/] is the receiver decides: the room is its text between the
    first and the second [/], [undefined] when it has no [/]; the entries
    after it are not read, and without such an entry the result is [false]. *)
Theorem getRoomForReceiver_first_match (matrixRooms : string) (receiver : option string)
    (room : RoomId) :
  getRoomForReceiver (Some matrixRooms) receiver = Ok room <->
  (room = NoRoom
   /\ forall config, In config (split "|" matrixRooms) ->
                     split "/" config !! 0%nat <> receiver)
  \/ exists before config after,
       split "|" matrixRooms = before ++ config :: after
       /\ (forall other, In other before -> split "/" other !! 0%nat <> receiver)
       /\ split "/" config !! 0%nat = receiver
       /\ room = match split "/" config !! 1%nat with
                 | Some id => Room id
                 | None => UndefinedRoom
                 end.
Proof.
  unfold getRoomForReceiver. generalize (split "|" matrixRooms) as configs.
  intros configs. revert room.
  induction configs as [|config configs IH]; intros room.
  - simpl. split.
    + intros [= <-]. left. split; [reflexivity | intros ? []].
    + intros [[-> _]|(before & c & after & Heq & _)]; [reflexivity |].
      now destruct before.
  - cbn [findRoom]. case_bool_decide as Hhead.
    + split.
      * intros [= <-]. right. exists [], config, configs.
        repeat split; auto; intros ? [].
      * intros [[_ Hnone]|(before & c & after & Heq & Hbefore & Hc & ->)].
        -- exfalso. apply (Hnone config); [now left | exact Hhead].
        -- destruct before as [|b before].
           ++ now injection Heq as <- <-.
           ++ injection Heq as <- _. exfalso.
              apply (Hbefore config); [now left | exact Hhead].
    + rewrite IH. split.
      * intros [[-> Hnone]|(before & c & after & -> & Hbefore & Hc & ->)].
        -- left. split; [reflexivity |]. intros c [<-|Hc]; auto.
        -- right. exists (config :: before), c, after. repeat split; auto.
           intros other [<-|Ho]; auto.
      * intros [[-> Hnone]|(before & c & after & Heq & Hbefore & Hc & ->)].
        -- left. split; [reflexivity |]. intros c Hc. apply Hnone. now right.
        -- destruct before as [|b before].
           ++ injection Heq as <- _. contradiction.
           ++ injection Heq as <- ->. right. exists before, c, after.
              repeat split; auto. intros other Ho. apply Hbefore. now right.
Qed.

(** ** [passwordsEqual] and the gate of [postAlerts] *)

Lemma N_of_ascii_inj (a b : ascii) : N_of_ascii a = N_of_ascii b -> a = b.
Proof.
  intros H. rewrite <- (ascii_N_embedding a), <- (ascii_N_embedding b). now rewrite H.
Qed.

Lemma utf8Unit_inj (c d : ascii) (x y : list N) :
  utf8Unit c ++ x = utf8Unit d ++ y -> c = d /\ x = y.
Proof.
  unfold utf8Unit.
  destruct (N.ltb_spec (N_of_ascii c) 128) as [Hc|Hc];
    destruct (N.ltb_spec (N_of_ascii d) 128) as [Hd|Hd]; cbn [app].
  - intros [= Hn ->]. split; [now apply N_of_ascii_inj | reflexivity].
  - intros [= Hn _]. pose proof (N.le_0_l (N_of_ascii d / 64)). lia.
  - intros [= Hn _]. pose proof (N.le_0_l (N_of_ascii c / 64)). lia.
  - intros [= Hq Hr ->]. split; [|reflexivity]. apply N_of_ascii_inj.
    rewrite (N.div_mod' (N_of_ascii c) 64), (N.div_mod' (N_of_ascii d) 64).
    assert (N_of_ascii c / 64 = N_of_ascii d / 64)%N as -> by lia.
    assert (N_of_ascii c mod 64 = N_of_ascii d mod 64)%N as -> by lia.
    reflexivity.
Qed.

(** Two strings with the same bytes are the same string. *)
Lemma bufferFrom_inj (a b : string) : bufferFrom a = bufferFrom b -> a = b.
Proof.
  unfold bufferFrom. revert b. induction a as [|c a IH]; intros [|d b]; simpl.
  - reflexivity.
  - unfold utf8Unit. destruct (N_of_ascii d <? 128)%N; discriminate.
  - unfold utf8Unit. destruct (N_of_ascii c <? 128)%N; discriminate.
  - intros [-> H]%utf8Unit_inj. f_equal. now apply IH.
Qed.

Lemma bufferFrom_length (s : string) :
  length (bufferFrom s) = (String.length s + twoByteUnits s)%nat.
Proof.
  unfold bufferFrom, twoByteUnits. induction s as [|c s IH]; [reflexivity |].
  cbn [chars_of list_ascii_of_string flat_map String.length List.filter].
  fold (chars_of s). rewrite length_app, IH. unfold utf8Unit.
  destruct (N_of_ascii c <? 128)%N; simpl; lia.
Qed.

Lemma passwordsEqual_strings (x y : string) :
  x <> EmptyString -> y <> EmptyString ->
  passwordsEqual (Some x) (Some y)
  = if (String.length x =? String.length y)%nat
    then timingSafeEqual (bufferFrom x) (bufferFrom y) else Falsy.
Proof. destruct x, y; intros Hx Hy; try congruence. reflexivity. Qed.

Lemma passwordsEqual_normal (a b : option string) :
  (exists x y, a = Some x /\ b = Some y /\ x <> EmptyString /\ y <> EmptyString)
  \/ (passwordsEqual a b = Falsy
      /\ ~ exists x y, a = Some x /\ b = Some y
                       /\ x <> EmptyString /\ y <> EmptyString).
Proof.
  destruct a as [[|ca sa]|], b as [[|cb sb]|];
    try (right; split;
         [reflexivity | intros (x & y & Ha & Hb & Hx & Hy); congruence]).
  left. eexists _, _. repeat split; discriminate.
Qed.

(** Only two equal, non-empty strings compare as equal. *)
Lemma passwordsEqual_Truthy (a b : option string) :
  passwordsEqual a b = Truthy <->
  exists s, s <> EmptyString /\ a = Some s /\ b = Some s.
Proof.
  destruct (passwordsEqual_normal a b) as [(x & y & -> & -> & Hx & Hy)|[HF Hno]].
  2: { rewrite HF. split; [discriminate |].
       intros (s & Hs & -> & ->). destruct Hno. now exists s, s. }
  rewrite passwordsEqual_strings by assumption.
  unfold timingSafeEqual. rewrite !bufferFrom_length.
  destruct (Nat.eqb_spec (String.length x) (String.length y)) as [Hlen|Hlen].
  - destruct (Nat.eqb_spec (String.length x + twoByteUnits x)
                (String.length y + twoByteUnits y)) as [Hbytes|Hbytes]; cbn [negb].
    + case_bool_decide as Heq.
      * apply bufferFrom_inj in Heq. split; [|reflexivity].
        intros _. exists x. repeat split; [assumption | congruence].
      * split; [discriminate |].
        intros (s & _ & [= <-] & [= Hxy]). destruct Heq. now rewrite Hxy.
    + split; [discriminate |].
      intros (s & _ & [= <-] & [= Hxy]). rewrite Hxy in Hbytes. congruence.
  - split; [discriminate |].
    intros (s & _ & [= <-] & [= Hxy]). rewrite Hxy in Hlen. congruence.
Qed.

(** X14: [passwordsEqual] is truthy only for two equal, non-empty strings,
    and for all of them; it throws exactly when the two strings are
    non-empty and of the same length but differ in the number of units that
    take two bytes. *)
Theorem passwordsEqual_spec (a b : option string) :
  (passwordsEqual a b = Truthy <->
   exists s, s <> EmptyString /\ a = Some s /\ b = Some s)
  /\ (passwordsEqual a b = ThrowsRangeError <->
      exists sa sb, a = Some sa /\ b = Some sb
        /\ sa <> EmptyString /\ sb <> EmptyString
        /\ String.length sa = String.length sb
        /\ twoByteUnits sa <> twoByteUnits sb).
Proof.
  split; [apply passwordsEqual_Truthy |].
  destruct (passwordsEqual_normal a b) as [(x & y & -> & -> & Hx & Hy)|[HF Hno]].
  2: { rewrite HF. split; [discriminate |].
       intros (sa & sb & -> & -> & Hsa & Hsb & _). destruct Hno. now exists sa, sb. }
  rewrite passwordsEqual_strings by assumption.
  unfold timingSafeEqual. rewrite !bufferFrom_length.
  destruct (Nat.eqb_spec (String.length x) (String.length y)) as [Hlen|Hlen].
  - destruct (Nat.eqb_spec (String.length x + twoByteUnits x)
                (String.length y + twoByteUnits y)) as [Hbytes|Hbytes]; cbn [negb].
    + split.
      * case_bool_decide; discriminate.
      * intros (x' & y' & [= <-] & [= <-] & _ & _ & _ & Hne). lia.
    + split; [|reflexivity].
      intros _. exists x, y. repeat split; try assumption. lia.
  - split; [discriminate |].
    intros (x' & y' & [= <-] & [= <-] & _ & _ & Hl & _). congruence.
Qed.

(** X15: [postAlerts] answers 500 exactly when no secret is configured, and
    it goes on to the payload only when the query holds the secret or the
    header holds [Bearer] and the secret; with such a credential it is never
    the answer 403 that stops it. *)
Theorem postAlertsGate_spec (expectedSecret querySecret authorization : option string) :
  (postAlertsGate expectedSecret querySecret authorization = Status500 <->
   expectedSecret = None \/ expectedSecret = Some EmptyString)
  /\ (postAlertsGate expectedSecret querySecret authorization = Proceeds ->
      exists secret, expectedSecret = Some secret /\ secret <> EmptyString
        /\ (querySecret = Some secret
            \/ authorization = Some ("Bearer " +:+ secret)))
  /\ (forall secret, expectedSecret = Some secret -> secret <> EmptyString ->
        querySecret = Some secret \/ authorization = Some ("Bearer " +:+ secret) ->
        postAlertsGate expectedSecret querySecret authorization <> Status403).
Proof.
  destruct expectedSecret as [[|c s]|].
  - split; [split; [now right | reflexivity] |]. split; [discriminate |].
    intros secret [= <-] Hne. congruence.
  - set (secret := String c s).
    change (postAlertsGate (Some secret) querySecret authorization) with
      (match passwordsEqual querySecret (Some secret) with
       | ThrowsRangeError => GateThrows
       | byQuery =>
           match passwordsEqual authorization (Some ("Bearer " +:+ secret)) with
           | ThrowsRangeError => GateThrows
           | byHeader =>
               match byQuery, byHeader with
               | Falsy, Falsy => Status403
               | _, _ => Proceeds
               end
           end
       end).
    pose proof (passwordsEqual_Truthy querySecret (Some secret)) as Hq.
    pose proof (passwordsEqual_Truthy authorization (Some ("Bearer " +:+ secret))) as Hh.
    assert (Hbearer : "Bearer " +:+ secret <> EmptyString) by discriminate.
    split; [|split].
    + split; [|intros [H|H]; discriminate].
      destruct (passwordsEqual querySecret _), (passwordsEqual authorization _);
        discriminate.
    + intros Hgo. exists secret. repeat split; [discriminate |].
      destruct (passwordsEqual querySecret _) eqn:Eq.
      * left. destruct (proj1 Hq eq_refl) as (x & _ & -> & [= ->]). reflexivity.
      * destruct (passwordsEqual authorization _) eqn:Eh; try discriminate.
        right. destruct (proj1 Hh eq_refl) as (x & _ & -> & [= ->]). reflexivity.
      * discriminate.
    + intros secret' [= <-] Hne [->| ->].
      * rewrite (proj2 Hq) by (exists secret; repeat split; discriminate).
        destruct (passwordsEqual authorization _); discriminate.
      * rewrite (proj2 Hh) by (exists ("Bearer " +:+ secret); repeat split; discriminate).
        destruct (passwordsEqual querySecret _); discriminate.
  - split; [split; [now left | reflexivity] |]. split; [discriminate |].
    intros secret [=].
Qed.

(** ** The callers: [formatAlerts] and [parseAlerts] *)

Lemma setAdd_fold_elem (values : list (option string)) :
  forall (acc : list (option string)) (x : option string),
    x ∈ fold_left setAdd values acc <-> x ∈ acc \/ x ∈ values.
Proof.
  induction values as [|v values IH]; intros acc x; simpl.
  - split; [now left | intros [H|H]; [exact H | now apply elem_of_nil in H]].
  - rewrite IH, setAdd_elem, elem_of_cons. tauto.
Qed.

(** The statuses that [formatAlerts] goes through are the statuses of the
    alerts. *)
Lemma sortedStatuses_elem (alerts : list Alert) (st : option string) :
  st ∈ sortedStatuses alerts <-> exists alert, In alert alerts /\ st = Some (status alert).
Proof.
  unfold sortedStatuses. rewrite sort_Permutation, setAdd_fold_elem. split.
  - intros [H|H]; [now apply elem_of_nil in H |].
    apply list_elem_of_In, in_map_iff in H as (alert & <- & Hin). now exists alert.
  - intros (alert & Hin & ->). right. apply list_elem_of_In, in_map_iff. now exists alert.
Qed.

Lemma mapM_same {A : Type} (f : A -> option string) (s : string) (l : list A) :
  Forall (fun a => f a = Some s) l ->
  mapM id (map f l) = Some (map (fun _ => s) l).
Proof.
  induction 1 as [|a l Ha _ IH]; [reflexivity |].
  cbn [map mapM]. rewrite Ha, IH. reflexivity.
Qed.

Section FormatAlertsFacts.

Variable differ : Differ.
Hypothesis differ_same : forall toks : list string,
  Forall isUnchanged (differ toks toks)
  /\ concat (map value (differ toks toks)) = toks.

Lemma mergeSummaries_same (group : list Alert) (s : string) :
  (2 <= length group)%nat ->
  Forall (fun alert => alertSummary alert = Some s) group ->
  mergeSummaries differ (map alertSummary group) = Throw TypeError.
Proof.
  intros Hlen Hall. destruct group as [|a1 [|a2 group]]; simpl in Hlen; try lia.
  unfold mergeSummaries. rewrite (mapM_same _ s _ Hall).
  cbn [map].
  assert (mergeStrings differ (s :: s :: map (fun _ => s) group) = Throw TypeError)
    as ->; [|reflexivity].
  apply identical_strings_TypeError; [exact differ_same | discriminate |].
  constructor; [reflexivity |]. apply List.Forall_forall.
  now intros t (a & <- & _)%in_map_iff.
Qed.

End FormatAlertsFacts.

(** X16: with any differ that reports an array against itself as unchanged,
    [formatAlerts] does not return when two or more alerts of one status all
    carry the same summary: the merge of line 437 throws for that status,
    unless something before it has thrown; nor does [parseAlerts] when
    [RESPECT_GROUPBY] is [1]. *)
Theorem formatAlerts_same_summaries (differ : Differ)
    (renderGroup : option string -> list Alert -> option string -> result (list string))
    (renderLinks : list Alert -> result (list string))
    (formatAlert : Alert -> result string)
    (alerts : list Alert) (st s : string) :
  (forall toks : list string,
      Forall isUnchanged (differ toks toks)
      /\ concat (map value (differ toks toks)) = toks) ->
  (2 <= length (alertsOfStatus alerts (Some st)))%nat ->
  Forall (fun alert => alertSummary alert = Some s) (alertsOfStatus alerts (Some st)) ->
  (forall out, formatAlerts differ renderGroup renderLinks alerts <> Ok out)
  /\ (forall out, parseAlerts differ renderGroup renderLinks formatAlert
                    (Some alerts) (Some "1") <> Ok out).
Proof.
  intros Hsame Hlen Hall.
  assert (Hformat : forall out, formatAlerts differ renderGroup renderLinks alerts <> Ok out).
  { intros out. unfold formatAlerts.
    destruct (forEach _ (sortedStatuses alerts)) as [groups|e] eqn:Hgroups;
      [|discriminate].
    exfalso.
    assert (Hst : In (Some st) (sortedStatuses alerts)).
    { apply list_elem_of_In, sortedStatuses_elem.
      destruct (alertsOfStatus alerts (Some st)) as [|alert group] eqn:Hgroup;
        [simpl in Hlen; lia |].
      assert (Hin : In alert (alertsOfStatus alerts (Some st)))
        by (rewrite Hgroup; now left).
      apply filter_In in Hin as [Hin Hstatus].
      apply bool_decide_eq_true in Hstatus. exists alert. split; [exact Hin | congruence]. }
    destruct (forEach_Ok_In _ _ _ _ Hgroups Hst) as (parts & _ & Hbody).
    cbv zeta in Hbody.
    rewrite (mergeSummaries_same differ Hsame _ s Hlen Hall) in Hbody. discriminate. }
  split; [exact Hformat |].
  intros out. unfold parseAlerts. rewrite bool_decide_eq_true_2 by reflexivity.
  destruct (formatAlerts differ renderGroup renderLinks alerts) as [message|e] eqn:Hf;
    [now destruct (Hformat message) | discriminate].
Qed.

Lemma formatAlerts_same_summaries_witness :
  ((forall toks : list string,
       Forall isUnchanged (diffArrays toks toks)
       /\ concat (map value (diffArrays toks toks)) = toks)
   /\ (2 <= length (alertsOfStatus
                      [mkAlert "firing" (Some "disk full") None;
                       mkAlert "resolved" (Some "cpu") None;
                       mkAlert "firing" None (Some "disk full")]
                      (Some "firing")))%nat
   /\ Forall (fun alert => alertSummary alert = Some "disk full")
        (alertsOfStatus
           [mkAlert "firing" (Some "disk full") None;
            mkAlert "resolved" (Some "cpu") None;
            mkAlert "firing" None (Some "disk full")]
           (Some "firing")))
  /\ forall out,
       formatAlerts diffArrays (fun _ _ _ => Ok []) (fun _ => Ok [])
         [mkAlert "firing" (Some "disk full") None;
          mkAlert "resolved" (Some "cpu") None;
          mkAlert "firing" None (Some "disk full")]
       <> Ok out.
Proof.
  assert (H2 : (2 <= length (alertsOfStatus
                      [mkAlert "firing" (Some "disk full") None;
                       mkAlert "resolved" (Some "cpu") None;
                       mkAlert "firing" None (Some "disk full")]
                      (Some "firing")))%nat) by (vm_compute; lia).
  assert (H3 : Forall (fun alert => alertSummary alert = Some "disk full")
        (alertsOfStatus
           [mkAlert "firing" (Some "disk full") None;
            mkAlert "resolved" (Some "cpu") None;
            mkAlert "firing" None (Some "disk full")]
           (Some "firing"))) by (vm_compute; repeat constructor).
  split; [split; [exact diffArrays_same | split; [exact H2 | exact H3]] |].
  exact (proj1 (formatAlerts_same_summaries diffArrays (fun _ _ _ => Ok [])
                  (fun _ => Ok []) (fun _ => Ok EmptyString) _ "firing" "disk full"
                  diffArrays_same H2 H3)).
Defined.

(** ** The anchor text is common to the strings *)

Lemma offsetsFrom_In (n : nat) :
  forall p x, In x (offsetsFrom p n) <-> p <= x < p + Z.of_nat n.
Proof.
  induction n as [|n IH]; intros p x; simpl; [lia |].
  rewrite IH. lia.
Qed.

Lemma offsetsFrom_sorted (n : nat) :
  forall p, StronglySorted Z.lt (offsetsFrom p n).
Proof.
  induction n as [|n IH]; intros p; simpl; constructor; [apply IH |].
  apply List.Forall_forall. intros x Hx%offsetsFrom_In. lia.
Qed.

Lemma rangeOffsets_In (r : Range) (x : Z) : In x (rangeOffsets r) <-> inRange r x.
Proof. unfold rangeOffsets, inRange. rewrite offsetsFrom_In. lia. Qed.

Lemma separated_offsets (ranges : list Range) :
  forall lo, separated lo ranges ->
    StronglySorted Z.lt (concat (map rangeOffsets ranges))
    /\ forall x, In x (concat (map rangeOffsets ranges)) ->
                 lo <= x /\ exists r, In r ranges /\ inRange r x.
Proof.
  induction ranges as [|r ranges IH]; intros lo Hsep; simpl.
  - split; [constructor | intros x []].
  - destruct Hsep as (Hlo & Hlt & Hsep). destruct (IH _ Hsep) as [Hsorted Hin].
    split.
    + apply StronglySorted_app_2; [|apply offsetsFrom_sorted | exact Hsorted].
      intros x1 x2 Hx1 Hx2.
      apply list_elem_of_In in Hx1, Hx2.
      apply (proj1 (rangeOffsets_In r x1)) in Hx1. apply Hin in Hx2 as [Hx2 _].
      unfold inRange in Hx1. lia.
    + intros x [Hx|Hx]%in_app_iff.
      * apply rangeOffsets_In in Hx. split; [unfold inRange in Hx; lia |].
        exists r. split; [now left | exact Hx].
      * destruct (Hin x Hx) as [Hge (r' & Hr' & Hrx)]. split; [lia |].
        exists r'. split; [now right | exact Hrx].
Qed.

(** Of two lists in strictly increasing order, the one whose elements all
    occur in the other is a subsequence of it. *)
Lemma sorted_sublist (l2 : list Z) :
  forall l1, StronglySorted Z.lt l1 -> StronglySorted Z.lt l2 ->
    (forall x, In x l1 -> In x l2) -> sublist l1 l2.
Proof.
  induction l2 as [|y l2 IH]; intros l1 H1 H2 Hin.
  - destruct l1 as [|x l1]; [constructor | destruct (Hin x); now left].
  - apply StronglySorted_inv in H2 as [H2 Hy]. rewrite List.Forall_forall in Hy.
    destruct l1 as [|x l1]; [apply sublist_nil_l |].
    pose proof H1 as H1'. apply StronglySorted_inv in H1' as [H1' Hx].
    rewrite List.Forall_forall in Hx.
    destruct (Z.eq_dec x y) as [Heq|Hne].
    + subst y. apply sublist_skip. apply IH; auto.
      intros z Hz. destruct (Hin z (or_intror Hz)) as [Hxz|Hz']; [|exact Hz'].
      specialize (Hx z Hz). lia.
    + apply sublist_cons. apply IH; auto.
      assert (Hxy : y < x).
      { destruct (Hin x (or_introl eq_refl)) as [Hyx|Hx']; [congruence | now apply Hy]. }
      intros z [Hxz|Hz].
      * subst z. destruct (Hin x (or_introl eq_refl)) as [Hyx|Hx']; [congruence | exact Hx'].
      * destruct (Hin z (or_intror Hz)) as [Hyz|Hz']; [|exact Hz'].
        specialize (Hx z Hz). lia.
Qed.

Lemma sublist_map {A B : Type} (f : A -> B) (l1 l2 : list A) :
  sublist l1 l2 -> sublist (map f l1) (map f l2).
Proof. induction 1; simpl; constructor; auto. Qed.

Lemma chars_of_substring (s : string) :
  forall i m, chars_of (substring i m s) = take m (drop i (chars_of s)).
Proof.
  induction s as [|c s IH]; intros i m.
  - destruct i, m; reflexivity.
  - destruct i as [|i].
    + destruct m as [|m]; [reflexivity |]. simpl. now rewrite IH.
    + simpl. apply IH.
Qed.

Lemma take_drop_offsets (old : list ascii) (m : nat) :
  forall i, (i + m <= length old)%nat ->
    take m (drop i old)
    = map (fun x => default Ascii.zero (old !! Z.to_nat x)) (offsetsFrom (Z.of_nat i) m).
Proof.
  induction m as [|m IH]; intros i Hlen; [now rewrite take_0 |].
  destruct (lookup_lt_is_Some_2 old i) as [c Hc]; [lia |].
  rewrite (drop_S _ _ _ Hc). cbn [take offsetsFrom map].
  rewrite Nat2Z.id, Hc. simpl. f_equal.
  replace (Z.of_nat i + 1) with (Z.of_nat (S i)) by lia. apply IH. lia.
Qed.

(** The slice of a range that lies in the string holds the units at the
    offsets of the range. *)
Lemma chars_of_slice (reference : string) (r : Range) :
  0 <= start r <= end_ r -> end_ r <= Z.of_nat (String.length reference) ->
  chars_of (slice reference (start r) (end_ r))
  = map (unitAt reference) (rangeOffsets r).
Proof.
  intros Hse Hen. unfold slice, rangeOffsets, unitAt.
  destruct (Z.ltb_spec (start r) 0) as [?|_]; [lia |].
  destruct (Z.ltb_spec (end_ r) 0) as [?|_]; [lia |].
  rewrite !Z.min_l, Z.max_l by lia.
  rewrite chars_of_substring, take_drop_offsets.
  - now rewrite Z2Nat.id by lia.
  - rewrite length_chars_of. lia.
Qed.

Lemma keptChars_units (v : list ascii) (r : bool) :
  forall p c, In c (fst (keptChars v r p)) ->
    p <= ptr c /\ v !! Z.to_nat (ptr c - p) = Some (cvalue c).
Proof.
  induction v as [|a v IH]; intros p c; simpl; [intros [] |].
  specialize (IH (p + 1) c). destruct (keptChars v r (p + 1)) as [chars p'].
  simpl in IH.
  assert (Hrest : In c chars ->
            p <= ptr c /\ (a :: v) !! Z.to_nat (ptr c - p) = Some (cvalue c)).
  { intros Hin. destruct (IH Hin) as [Hle Hv]. split; [lia |].
    replace (Z.to_nat (ptr c - p)) with (S (Z.to_nat (ptr c - (p + 1)))) by lia.
    exact Hv. }
  destruct r; simpl; [exact Hrest |].
  intros [<-|Hin]; [|now apply Hrest].
  simpl. split; [lia |]. now replace (p - p) with 0 by lia.
Qed.

Lemma keptChars_sorted (v : list ascii) (r : bool) :
  forall p, StronglySorted Z.lt (map ptr (fst (keptChars v r p))).
Proof.
  induction v as [|a v IH]; intros p; simpl; [constructor |].
  pose proof (fun c => keptChars_adjacent v r (p + 1) c) as Hb.
  specialize (IH (p + 1)). destruct (keptChars v r (p + 1)) as [chars p'].
  simpl in *. destruct r; simpl; [exact IH |].
  constructor; [exact IH |]. apply List.Forall_forall.
  intros x (c & <- & Hc)%in_map_iff. destruct (Hb c Hc). lia.
Qed.

Lemma filter_addedChars (v : string) (p : Z) :
  List.filter (fun c => negb (countAdjacent c)) (addedChars v p) = [].
Proof. unfold addedChars. induction (chars_of v); simpl; auto. Qed.

Lemma filter_keptChars (v : list ascii) (r : bool) (p : Z) :
  List.filter (fun c => negb (countAdjacent c)) (fst (keptChars v r p))
  = fst (keptChars v r p).
Proof.
  pose proof (fun c => keptChars_adjacent v r p c) as Hb.
  induction (fst (keptChars v r p)) as [|c chars IH]; [reflexivity |].
  simpl. destruct (Hb c) as [-> _]; [now left |]. simpl. f_equal.
  apply IH. intros c' Hc'. apply Hb. now right.
Qed.

(** The entries of the second pass that are not adjacent carry the unit of
    the old side at their offset. *)
Lemma charsOf_old_units (diff : list (Change string)) :
  forall p c, In c (charsOf diff p) -> countAdjacent c = false ->
    p <= ptr c
    /\ concat (map chars_of (oldSide diff)) !! Z.to_nat (ptr c - p) = Some (cvalue c).
Proof.
  induction diff as [|edit diff IH]; intros p c; [intros [] |].
  rewrite oldSide_cons. cbn [charsOf]. destruct (added edit).
  - intros [Hin|Hin]%in_app_iff Hadj; [|now apply IH].
    apply addedChars_spec in Hin as [? _]. congruence.
  - pose proof (keptChars_snd (chars_of (value edit)) (removed edit) p) as Hk.
    pose proof (keptChars_units (chars_of (value edit)) (removed edit) p c) as Hu.
    pose proof (keptChars_adjacent (chars_of (value edit)) (removed edit) p c) as Hb.
    destruct (keptChars _ _ p) as [chars p'].
    simpl in Hk, Hu, Hb. cbn [map concat].
    intros [Hin|Hin]%in_app_iff Hadj.
    + destruct (Hu Hin) as [Hle Hv]. split; [exact Hle |].
      apply lookup_app_l_Some. exact Hv.
    + destruct (IH p' c Hin Hadj) as [Hle Hv]. split; [lia |].
      rewrite lookup_app_r by lia.
      replace (Z.to_nat (ptr c - p) - length (chars_of (value edit)))%nat
        with (Z.to_nat (ptr c - p')) by lia.
      exact Hv.
Qed.

(** They come in strictly increasing order of offset. *)
Lemma charsOf_sorted (diff : list (Change string)) :
  forall p, StronglySorted Z.lt
              (map ptr (List.filter (fun c => negb (countAdjacent c)) (charsOf diff p))).
Proof.
  induction diff as [|edit diff IH]; intros p; [constructor |].
  cbn [charsOf]. destruct (added edit).
  - rewrite List.filter_app, filter_addedChars. apply IH.
  - pose proof (keptChars_snd (chars_of (value edit)) (removed edit) p) as Hk.
    pose proof (keptChars_sorted (chars_of (value edit)) (removed edit) p) as Hs.
    pose proof (filter_keptChars (chars_of (value edit)) (removed edit) p) as Hf.
    pose proof (fun c => keptChars_adjacent (chars_of (value edit)) (removed edit) p c) as Hb.
    destruct (keptChars _ _ p) as [chars p'].
    simpl in Hk, Hs, Hf, Hb.
    rewrite List.filter_app, Hf, map_app.
    apply StronglySorted_app_2; [|exact Hs | apply IH].
    intros x1 x2 Hx1 Hx2. apply list_elem_of_In in Hx1, Hx2.
    apply in_map_iff in Hx1 as (c1 & <- & Hc1). apply in_map_iff in Hx2 as (c2 & <- & Hc2).
    apply filter_In in Hc2 as [Hc2 _].
    destruct (Hb c1 Hc1) as [_ Hb1].
    pose proof (charsOf_ptr_bounds diff ∅ p' c2 Hc2). lia.
Qed.

Lemma oldSide_joined (script : list (Change (list string))) :
  oldSide
    (map (fun m =>
            let v := join_empty (value m) in
            mkChange v (String.length v) (added m) (removed m)) script)
  = map join_empty (oldSide script).
Proof.
  unfold oldSide. cbv zeta.
  induction script as [|e script IH]; [reflexivity |].
  cbn [map List.filter added]. destruct (added e); cbn [negb map value]; now rewrite IH.
Qed.

Lemma filter_sublist {A : Type} (f : A -> bool) (l : list A) :
  sublist (List.filter f l) l.
Proof.
  induction l as [|x l IH]; simpl; [constructor |].
  destruct (f x); now constructor.
Qed.

Lemma concat_map_map {A B C : Type} (f : B -> C) (g : A -> list B) (l : list A) :
  concat (map (fun a => map f (g a)) l) = map f (concat (map g l)).
Proof.
  induction l as [|a l IH]; [reflexivity |]. simpl. now rewrite IH, map_app.
Qed.

(** The text of the anchor ranges, unit by unit. *)
Lemma chars_of_anchorText (reference : string) (ranges : list Range) :
  separated 0 ranges ->
  Forall (fun r => end_ r <= Z.of_nat (String.length reference)) ranges ->
  chars_of (anchorText reference ranges)
  = map (unitAt reference) (concat (map rangeOffsets ranges)).
Proof.
  intros Hsep Hend. unfold anchorText.
  rewrite chars_of_join_empty, map_map, <- concat_map_map. f_equal.
  apply map_ext_in. intros r Hr. apply chars_of_slice.
  - destruct (separated_start 0 ranges r Hsep Hr). lia.
  - rewrite List.Forall_forall in Hend. now apply Hend.
Qed.

(** X18: the anchor text of a merge, that is the slices of the first string
    at the unchanged ranges, one after the other, is a subsequence of every
    input string whose script holds the tokens of the first string on its
    old side and the tokens of that input on its new side. *)
Theorem anchor_text_in_every_string (differ : Differ) (first second : string)
    (others : list string) (U : gset Z) (candidate : string) :
  unchangedCommonOf first
    (map (diffSegmented differ first) (first :: second :: others)) = Ok U ->
  In candidate (first :: second :: others) ->
  exclusive (differ (segmentString first) (segmentString candidate)) ->
  concat (oldSide (differ (segmentString first) (segmentString candidate)))
  = segmentString first ->
  concat (newSide (differ (segmentString first) (segmentString candidate)))
  = segmentString candidate ->
  sublist
    (chars_of (anchorText first (unchangedRangesOf U (String.length first))))
    (chars_of candidate).
Proof.
  intros Hcommon Hin Hex Hold Hnew.
  set (diff := diffSegmented differ first candidate).
  assert (Hdiff : In diff (map (diffSegmented differ first) (first :: second :: others)))
    by (apply in_map; exact Hin).
  destruct (unchangedCommonOf_elem _ _ _ Hcommon diff Hdiff) as [Hcur Hsub].
  destruct (unchangedRangesOf_separated U (String.length first))
    as (Hsep & Hend & Hsound & _).
  set (nonadj := List.filter (fun c => negb (countAdjacent c)) (charsOf diff 0)).
  assert (Hcand : map cvalue (charsOf diff 0) = chars_of candidate).
  { rewrite (charsOf_values diff 0). unfold diff, diffSegmented.
    rewrite shownValues_new_side by exact Hex.
    rewrite <- (chars_of_join_empty (map join_empty _)).
    now rewrite join_empty_concat, Hnew, join_segmentString. }
  assert (Holds : concat (map chars_of (oldSide diff)) = chars_of first).
  { unfold diff, diffSegmented. rewrite oldSide_joined.
    rewrite <- (chars_of_join_empty (map join_empty _)).
    now rewrite join_empty_concat, Hold, join_segmentString. }
  assert (Hunits : map cvalue nonadj = map (unitAt first) (map ptr nonadj)).
  { rewrite map_map. apply map_ext_in. intros c [Hc Hadj]%filter_In.
    apply negb_true_iff in Hadj.
    destruct (charsOf_old_units diff 0 c Hc Hadj) as [_ Hlook].
    rewrite Holds, Z.sub_0_r in Hlook. unfold unitAt. now rewrite Hlook. }
  destruct (separated_offsets _ 0 Hsep) as [Hsorted Hoffsets].
  assert (Hanchors : sublist (concat (map rangeOffsets
                                (unchangedRangesOf U (String.length first))))
                       (map ptr nonadj)).
  { apply sorted_sublist; [exact Hsorted | apply charsOf_sorted |].
    intros x Hx. destruct (Hoffsets x Hx) as [_ (r & Hr & Hrx)].
    pose proof (Hsub x (Hsound r x Hr Hrx)) as HxU.
    apply markEdits_elem_chars in HxU as [H|(c & Hc & Hadj & <-)];
      [now apply not_elem_of_empty in H |].
    apply in_map. apply filter_In. split; [exact Hc | now rewrite Hadj]. }
  rewrite chars_of_anchorText by assumption.
  transitivity (map cvalue nonadj).
  - rewrite Hunits. now apply sublist_map.
  - rewrite <- Hcand. apply sublist_map, filter_sublist.
Qed.

Lemma anchor_text_witness :
  (unchangedCommonOf "a b c" (map (diffSegmented diffArrays "a b c") ["a b c"; "x b y"])
   = Ok ({[1%Z; 2%Z; 3%Z]} : gset Z)
   /\ In "x b y" ["a b c"; "x b y"]
   /\ exclusive (diffArrays (segmentString "a b c") (segmentString "x b y"))
   /\ concat (oldSide (diffArrays (segmentString "a b c") (segmentString "x b y")))
      = segmentString "a b c"
   /\ concat (newSide (diffArrays (segmentString "a b c") (segmentString "x b y")))
      = segmentString "x b y")
  /\ sublist
       (chars_of (anchorText "a b c"
                    (unchangedRangesOf ({[1%Z; 2%Z; 3%Z]} : gset Z)
                       (String.length "a b c"))))
       (chars_of "x b y").
Proof.
  assert (H1 : unchangedCommonOf "a b c"
                 (map (diffSegmented diffArrays "a b c") ["a b c"; "x b y"])
               = Ok ({[1%Z; 2%Z; 3%Z]} : gset Z)) by (vm_compute; reflexivity).
  assert (H2 : In "x b y" ["a b c"; "x b y"]) by (simpl; auto).
  assert (H3 : exclusive (diffArrays (segmentString "a b c") (segmentString "x b y")))
    by (vm_compute; repeat constructor).
  assert (H4 : concat (oldSide (diffArrays (segmentString "a b c")
                                  (segmentString "x b y")))
               = segmentString "a b c") by (vm_compute; reflexivity).
  assert (H5 : concat (newSide (diffArrays (segmentString "a b c")
                                  (segmentString "x b y")))
               = segmentString "x b y") by (vm_compute; reflexivity).
  split; [repeat split; assumption |].
  exact (anchor_text_in_every_string diffArrays "a b c" "x b y" [] _ "x b y"
           H1 H2 H3 H4 H5).
Defined.

(** ** The first string fills its own template *)

Lemma keptChars_unchanged (v : list ascii) :
  forall p, keptChars v false p = (entriesFrom p v, p + Z.of_nat (length v)).
Proof.
  induction v as [|c v IH]; intros p; simpl; [f_equal; lia |].
  rewrite IH. simpl. f_equal. lia.
Qed.

Lemma entriesFrom_app (xs ys : list ascii) :
  forall p, entriesFrom p (xs ++ ys)
            = entriesFrom p xs ++ entriesFrom (p + Z.of_nat (length xs)) ys.
Proof.
  induction xs as [|x xs IH]; intros p; simpl.
  - now rewrite Z.add_0_r.
  - rewrite IH. do 3 f_equal. lia.
Qed.

(** The entries of a script of unchanged edits: the units of its values, at
    consecutive offsets. *)
Lemma charsOf_unchanged (diff : list (Change string)) :
  Forall isUnchanged diff ->
  forall p, charsOf diff p = entriesFrom p (concat (map chars_of (map value diff))).
Proof.
  induction 1 as [|edit diff [Ha Hr] _ IH]; intros p; [reflexivity |].
  cbn [charsOf map concat]. rewrite Ha, Hr, keptChars_unchanged, IH.
  now rewrite entriesFrom_app.
Qed.

Section SelfVariants.

Variable reference : string.

#[local] Abbreviation len := (Z.of_nat (String.length reference)).
#[local] Abbreviation units := (chars_of reference).
#[local] Abbreviation suffixFrom := (suffixOf reference).
#[local] Abbreviation sliceOf := (sliceAt reference).
#[local] Abbreviation between := (unitsBetween reference).

Lemma suffixFrom_nil (q : Z) : len <= q -> suffixFrom q = [].
Proof.
  intros Hq. unfold suffixOf. rewrite drop_ge; [reflexivity |].
  rewrite length_chars_of. lia.
Qed.

Lemma suffixFrom_cons (q : Z) :
  0 <= q < len ->
  suffixFrom q = mkChar q (unitAt reference q) false :: suffixFrom (q + 1).
Proof.
  intros Hq. unfold suffixOf, unitAt.
  destruct (lookup_lt_is_Some_2 units (Z.to_nat q)) as [c Hc];
    [rewrite length_chars_of; lia |].
  rewrite (drop_S _ _ _ Hc), Hc. simpl.
  now replace (Z.to_nat (q + 1)) with (S (Z.to_nat q)) by lia.
Qed.

Lemma skipBefore_self (k : nat) :
  forall q s, s = q + Z.of_nat k -> 0 <= q -> s < len ->
    skipBefore s (suffixFrom q) = Ok (suffixFrom s, false).
Proof.
  induction k as [|k IH]; intros q s Hs Hq Hlen.
  - replace s with q by lia. rewrite suffixFrom_cons by lia.
    cbn [skipBefore ptr]. now rewrite Z.ltb_irrefl.
  - rewrite suffixFrom_cons by lia. cbn [skipBefore ptr].
    destruct (Z.ltb_spec q s) as [_|?]; [|lia].
    specialize (IH (q + 1) s). rewrite (suffixFrom_cons (q + 1)) in * by lia.
    apply IH; lia.
Qed.

Lemma takeWithin_self (k : nat) :
  forall s e vp, e = s + Z.of_nat k -> 0 <= s < len -> e <= len ->
    takeWithin e (suffixFrom s) vp
    = Ok (suffixFrom (e + 1), negb (e + 1 <? len),
          vp ++ map (unitAt reference) (offsetsFrom s k)).
Proof.
  induction k as [|k IH]; intros s e vp He Hs Hlen.
  - replace e with s by lia. rewrite suffixFrom_cons by lia.
    cbn [takeWithin ptr countAdjacent offsetsFrom map].
    rewrite Z.leb_refl, Z.ltb_irrefl. cbn [orb]. rewrite app_nil_r.
    destruct (Z.ltb_spec (s + 1) len) as [Hlt|Hge]; cbn [negb].
    + rewrite (suffixFrom_cons (s + 1)) by lia.
      cbn [takeWithin ptr]. destruct (Z.leb_spec (s + 1) s) as [?|_]; [lia |].
      reflexivity.
    + now rewrite suffixFrom_nil by lia.
  - rewrite suffixFrom_cons by lia.
    cbn [takeWithin ptr countAdjacent cvalue offsetsFrom map].
    destruct (Z.leb_spec s e) as [_|?]; [|lia].
    destruct (Z.ltb_spec s e) as [_|?]; [|lia]. cbn [orb].
    destruct (Z.ltb_spec (s + 1) len) as [Hlt|Hge].
    + specialize (IH (s + 1) e (vp ++ [unitAt reference s])).
      rewrite (suffixFrom_cons (s + 1)) in * by lia.
      rewrite IH by lia. now rewrite <- app_assoc.
    + rewrite (suffixFrom_nil (s + 1)) by lia.
      assert (k = O) as -> by lia. assert (e = len) as -> by lia.
      rewrite suffixFrom_nil by lia.
      destruct (Z.ltb_spec (len + 1) len) as [?|_]; [lia |]. reflexivity.
Qed.

Lemma string_of_slice (r : Range) :
  0 <= start r <= end_ r -> end_ r <= len ->
  string_of (map (unitAt reference) (rangeOffsets r)) = sliceOf r.
Proof.
  intros Hse Hen. unfold sliceAt. rewrite <- chars_of_slice by assumption.
  apply string_of_list_ascii_of_string.
Qed.

(** On ranges in order and apart, the extractor gives the entries of the
    reference itself the slices of the reference. *)
Lemma extractParts_self (ranges : list Range) :
  forall q acc,
    separated q ranges -> Forall (fun r => end_ r <= len) ranges ->
    0 <= q -> (ranges <> [] -> q < len) ->
    extractParts ranges (suffixFrom q) acc = Ok (acc ++ map sliceOf ranges).
Proof.
  induction ranges as [|r ranges IH]; intros q acc Hsep Hend Hq Hne.
  - simpl. now rewrite app_nil_r.
  - destruct Hsep as (Hlo & Hlt & Hsep). apply Forall_cons in Hend as [Hr Hend].
    assert (Hqlen : q < len) by (apply Hne; discriminate).
    cbn [extractParts]. rewrite (suffixFrom_cons q) by lia. cbn [ptr].
    destruct (Z.gtb_spec q (end_ r)) as [?|_]; [lia |].
    rewrite <- (suffixFrom_cons q) by lia.
    rewrite (skipBefore_self (Z.to_nat (start r - q)) q (start r)) by lia.
    rewrite bind_Ok.
    rewrite (takeWithin_self (Z.to_nat (end_ r - start r)) (start r) (end_ r) []) by lia.
    rewrite bind_Ok. cbn [app].
    change (map (unitAt reference) (offsetsFrom (start r) (Z.to_nat (end_ r - start r))))
      with (map (unitAt reference) (rangeOffsets r)).
    rewrite string_of_slice by lia.
    destruct (Z.ltb_spec (end_ r + 1) len) as [Hlt'|Hge]; cbn [negb].
    + rewrite IH; auto; [|lia]. cbn [map]. now rewrite <- app_assoc.
    + destruct ranges as [|r' ranges]; [reflexivity |].
      destruct Hsep as (Hlo' & Hlt'' & _). apply Forall_cons in Hend as [Hr' _]. lia.
Qed.

Lemma offsetsFrom_app (m k : nat) :
  forall p, offsetsFrom p (m + k) = offsetsFrom p m ++ offsetsFrom (p + Z.of_nat m) k.
Proof.
  induction m as [|m IH]; intros p; simpl.
  - now rewrite Z.add_0_r.
  - rewrite IH. do 3 f_equal. lia.
Qed.

Lemma between_app (a b c : Z) :
  a <= b <= c -> between a b ++ between b c = between a c.
Proof.
  intros H. unfold unitsBetween.
  replace (Z.to_nat (c - a)) with (Z.to_nat (b - a) + Z.to_nat (c - b))%nat by lia.
  rewrite offsetsFrom_app, map_app. do 3 f_equal. lia.
Qed.

Lemma chars_of_sliceOf (r : Range) :
  0 <= start r <= end_ r -> end_ r <= len ->
  chars_of (sliceOf r) = between (start r) (end_ r).
Proof. intros. unfold sliceAt, unitsBetween. now rewrite chars_of_slice. Qed.

(** The gaps and the ranges between them, taken in turn from the gap before
    the first range, are the units from the end of [a] to the start of
    [z]. *)
Lemma tiling_from_gap (R : list Range) :
  forall a z : Range,
    separated (end_ a) R -> Forall (fun r => end_ r <= start z) R ->
    0 <= end_ a <= start z -> start z <= len ->
    match R with [] => True | r :: _ => end_ a < start r end ->
    chars_of (join_empty
                (interleave (map sliceOf (gapsBetween (a :: R ++ [z])))
                            (map sliceOf R)))
    = between (end_ a) (start z).
Proof.
  induction R as [|r R IH]; intros a z Hsep Hend Haz Hz Hgap.
  - cbn [app]. rewrite gapsBetween_cons. cbn [gapsBetween].
    destruct (Z.eqb_spec (end_ a) (start z)) as [Heq|Hne]; cbn [negb].
    + rewrite Heq. unfold unitsBetween. rewrite Z.sub_diag. reflexivity.
    + cbn [map interleave]. unfold join_empty. cbn [String.concat].
      now rewrite chars_of_sliceOf by (simpl; lia).
  - destruct Hsep as (Hlo & Hlt & Hsep). apply Forall_cons in Hend as [Hrz Hend].
    cbn [app]. rewrite gapsBetween_cons.
    destruct (Z.eqb_spec (end_ a) (start r)) as [Heq|Hne]; [lia |]. cbn [negb map].
    cbn [interleave]. rewrite !join_empty_cons, !chars_of_append.
    rewrite IH; auto.
    + rewrite !chars_of_sliceOf by (simpl; lia). cbn [start end_].
      rewrite between_app by lia. apply between_app. lia.
    + eapply separated_weaken; [|exact Hsep]. lia.
    + lia.
    + destruct R as [|r' R']; [exact I |]. destruct Hsep as (Hr' & _). lia.
Qed.

(** The same when the first range starts where [a] ends. *)
Lemma tiling_from_range (r : Range) (R : list Range) (a z : Range) :
  separated (end_ a) (r :: R) -> Forall (fun r => end_ r <= start z) (r :: R) ->
  0 <= end_ a <= start z -> start z <= len ->
  end_ a = start r ->
  chars_of (join_empty
              (interleave (map sliceOf (r :: R))
                          (map sliceOf (gapsBetween (a :: (r :: R) ++ [z])))))
  = between (end_ a) (start z).
Proof.
  intros Hsep Hend Haz Hz Heq.
  destruct Hsep as (Hlo & Hlt & Hsep). apply Forall_cons in Hend as [Hrz Hend].
  cbn [app]. rewrite gapsBetween_cons, Heq, Z.eqb_refl. cbn [negb map].
  rewrite (interleave_cons (_ :: _)), join_empty_cons, chars_of_append.
  rewrite tiling_from_gap; auto.
  - rewrite chars_of_sliceOf by lia. apply between_app. lia.
  - eapply separated_weaken; [|exact Hsep]. lia.
  - lia.
  - destruct R as [|r' R']; [exact I |]. destruct Hsep as (Hr' & _). lia.
Qed.

End SelfVariants.

Lemma joined_values_units (script : list (Change (list string))) :
  concat (map chars_of
            (map value
               (map (fun m =>
                       let v := join_empty (value m) in
                       mkChange v (String.length v) (added m) (removed m)) script)))
  = concat (map chars_of (concat (map value script))).
Proof.
  induction script as [|m script IH]; [reflexivity |].
  simpl. rewrite map_app, concat_app, chars_of_join_empty. f_equal. exact IH.
Qed.

(** The entries of the first string against itself: its own units, each
    unchanged, at its own offset. *)
Lemma charsOf_self (differ : Differ) (reference : string) :
  Forall isUnchanged (differ (segmentString reference) (segmentString reference)) ->
  concat (map value (differ (segmentString reference) (segmentString reference)))
  = segmentString reference ->
  charsOf (diffSegmented differ reference reference) 0 = suffixOf reference 0.
Proof.
  intros Hsame Hvalues. rewrite charsOf_unchanged.
  - unfold diffSegmented. rewrite joined_values_units, Hvalues.
    rewrite <- chars_of_join_empty, join_segmentString. reflexivity.
  - unfold diffSegmented. apply List.Forall_map.
    eapply List.Forall_impl; [|exact Hsame]. intros m [Ha Hr]. split; assumption.
Qed.

Lemma unitsBetween_all (reference : string) :
  unitsBetween reference 0 (Z.of_nat (String.length reference)) = chars_of reference.
Proof.
  unfold unitsBetween. rewrite Z.sub_0_r, Nat2Z.id.
  pose proof (take_drop_offsets (chars_of reference) (String.length reference) 0) as H.
  rewrite length_chars_of in H. specialize (H (Nat.le_refl _)).
  change (Z.of_nat 0) with 0 in H.
  change (drop 0 (chars_of reference)) with (chars_of reference) in H.
  change (map (unitAt reference) (offsetsFrom 0 (String.length reference))
          = chars_of reference).
  unfold unitAt. rewrite <- H.
  apply take_ge. rewrite length_chars_of. lia.
Qed.

(** X19 (src/src/utils.js, mergeStrings, lines 125-221): whatever the set of
    unchanged offsets, when the script of the first string against itself
    keeps all its tokens, the varying parts the extractor takes from it are
    the slices of the first string at the varying ranges, and the pieces of
    the composer, with these parts in the place of the brackets, join to the
    first string again. *)
Theorem first_string_fills_template (differ : Differ) (reference : string)
    (U : gset Z) (first : Range) (others : list Range) :
  Forall isUnchanged (differ (segmentString reference) (segmentString reference)) ->
  concat (map value (differ (segmentString reference) (segmentString reference)))
  = segmentString reference ->
  varyingRangesOf (unchangedRangesOf U (String.length reference))
    (String.length reference) = first :: others ->
  varyingPartsOf (first :: others) (diffSegmented differ reference reference)
  = Ok (map (sliceAt reference) (first :: others))
  /\ join_empty
       (weave (start first =? 0)
          (map (sliceAt reference) (first :: others))
          (map (sliceAt reference)
             (unchangedRangesOf U (String.length reference))))
     = reference.
Proof.
  intros Hsame Hvalues Hv.
  set (n := String.length reference) in *.
  destruct (unchangedRangesOf_separated U n) as (Hsep & Hend & _).
  pose (z := mkRange (Z.of_nat n) (Z.of_nat n + 1)).
  destruct (gapsBetween_spec (unchangedRangesOf U n) (mkRange (-1) 0) z Hsep Hend)
    as (HsepV & HendV & _); [simpl; lia |].
  unfold varyingRangesOf, augment in Hv. cbn [app] in Hv. fold z in Hv.
  pose proof HsepV as HsepV'. pose proof HendV as HendV'.
  rewrite Hv in HsepV', HendV'. cbn [end_] in HsepV'.
  destruct HsepV' as (Hlo & Hlt & _).
  pose proof (Forall_inv HendV') as Hhi. cbn [start z] in Hhi. cbn beta in Hhi.
  split.
  - unfold varyingPartsOf. rewrite charsOf_self by assumption.
    rewrite extractParts_self; [reflexivity | | | lia |].
    + rewrite <- Hv. exact HsepV.
    + rewrite <- Hv. exact HendV.
    + intros _. fold n. lia.
  - assert (Hunits : forall s t, chars_of s = chars_of t -> s = t).
    { intros s t Hst. rewrite <- (string_of_list_ascii_of_string s),
        <- (string_of_list_ascii_of_string t). exact (f_equal string_of Hst). }
    apply Hunits. rewrite <- Hv. unfold weave.
    destruct (unchangedRangesOf U n) as [|r R] eqn:HR.
    + assert (H0 : start first = 0).
      { cbn [app] in Hv. rewrite gapsBetween_cons in Hv. cbn [gapsBetween] in Hv.
        destruct (negb (end_ (mkRange (-1) 0) =? start z)); [|discriminate].
        injection Hv as <- _. reflexivity. }
      rewrite H0, Z.eqb_refl. cbv iota.
      rewrite (tiling_from_gap reference [] (mkRange (-1) 0) z);
        try (simpl; lia); auto.
      apply unitsBetween_all.
    + destruct Hsep as (Hr0 & Hrlt & Hsep). cbn [end_] in *.
      destruct (Z.eqb_spec (start first) 0) as [H0|Hne].
      * assert (Hgap : 0 < start r).
        { destruct (Z.eq_dec (start r) 0) as [Hr|Hr]; [|lia]. exfalso.
          apply Forall_cons in Hend as [Hrz Hend].
          destruct (gapsBetween_spec R r z) as (HsepR & _);
            [eapply separated_weaken; [|exact Hsep]; lia | exact Hend
             | simpl; lia |].
          cbn [app] in Hv. rewrite gapsBetween_cons in Hv. cbn [end_] in Hv.
          rewrite <- Hr, Z.eqb_refl in Hv. cbn [negb] in Hv.
          rewrite Hv in HsepR. destruct HsepR as (Hfirst & _). lia. }
        rewrite (tiling_from_gap reference (r :: R) (mkRange (-1) 0) z);
          try (simpl; lia); auto.
        -- apply unitsBetween_all.
        -- cbn [separated end_]. auto.
      * assert (Hr : start r = 0).
        { destruct (Z.eq_dec (start r) 0) as [Hr|Hr]; [exact Hr |]. exfalso.
          cbn [app] in Hv. rewrite gapsBetween_cons in Hv. cbn [end_] in Hv.
          destruct (Z.eqb_spec 0 (start r)) as [?|_]; [lia |]. cbn [negb] in Hv.
          injection Hv as <- _. apply Hne. reflexivity. }
        rewrite (tiling_from_range reference r R (mkRange (-1) 0) z);
          try (simpl; lia); auto.
        -- apply unitsBetween_all.
        -- cbn [separated end_]. auto.
Qed.

Lemma first_string_fills_template_witness :
  varyingPartsOf [mkRange 2 3] (diffSegmented diffArrays "a b c" "a b c")
  = Ok (map (sliceAt "a b c") [mkRange 2 3])
  /\ join_empty
       (weave (start (mkRange 2 3) =? 0)
          (map (sliceAt "a b c") [mkRange 2 3])
          (map (sliceAt "a b c")
             (unchangedRangesOf ({[0%Z; 1%Z; 3%Z; 4%Z]} : gset Z)
                (String.length "a b c"))))
     = "a b c".
Proof.
  apply (first_string_fills_template diffArrays "a b c"
           ({[0%Z; 1%Z; 3%Z; 4%Z]} : gset Z) (mkRange 2 3) []).
  - apply diffArrays_same.
  - apply diffArrays_same.
  - vm_compute. reflexivity.
Defined.
